(** * xfuse (package [hssl]): the command-line entry point and the
      [log_file] session item

    A shallow embedding of [src/hssl/__main__.py] and
    [src/hssl/session/items/log_file.py].

    Python objects that are mutated in place live in an explicit store
    (module globals, the logger's handler list, the file system, the heap
    of [Session] objects); a function that can raise returns a [Result]
    together with the store it leaves behind, because in Python the
    mutations made before a [raise] stay. *)

From Stdlib Require Import ZArith Lia Ascii String DecimalString DecimalZ DecimalPos.
From stdpp Require Import base option list strings gmap fin_maps.

Local Open Scope string_scope.
Local Open Scope list_scope.

(** ** Python values, exceptions and results *)

(** The exception classes that occur.  [OtherError] stands for whatever an
    opaque collaborator raises. *)
Inductive Exn :=
| FileNotFoundError
| NotADirectoryError
| IsADirectoryError
| FileExistsError
| KeyError (key : string)
| TypeError
| DuplicateNameError (name : string)
| UnknownItemError (name : string)
| MalformedSessionError
| OutOfOrderDeactivation
| OSError
| OtherError (what : string).

(** The values a session item can hold.  [VUnset] is the class [Unset] used
    as a sentinel; [VCallable] is a function object, known by its identity. *)
Inductive Value :=
| VNone
| VUnset
| VBool (b : bool)
| VInt (z : Z)
| VStr (s : string)
| VCallable (oid : nat).

#[global] Instance Exn_eq_dec : EqDecision Exn.
Proof. solve_decision. Defined.

#[global] Instance Value_eq_dec : EqDecision Value.
Proof. solve_decision. Defined.

(** [isinstance(v, str)] *)
Definition isinstance_str (v : Value) : bool :=
  match v with VStr _ => true | _ => false end.

Inductive Result (A : Type) :=
| Ok (a : A)
| Raise (e : Exn).
Arguments Ok {A} a.
Arguments Raise {A} e.

Definition returned {A} (r : Result A) : bool :=
  match r with Ok _ => true | Raise _ => false end.

(** A computation over a store [S]: the store is threaded through, and
    survives an exception. *)
Definition M (S A : Type) : Type := S -> Result A * S.

Definition ret {S A} (a : A) : M S A := fun s => (Ok a, s).
Definition raise {S A} (e : Exn) : M S A := fun s => (Raise e, s).
Definition bind {S A B} (m : M S A) (k : A -> M S B) : M S B :=
  fun s => match m s with
           | (Ok a, s') => k a s'
           | (Raise e, s') => (Raise e, s')
           end.
Definition get {S} : M S S := fun s => (Ok s, s).
Definition modify {S} (f : S -> S) : M S unit := fun s => (Ok tt, f s).
Definition when_ {S} (b : bool) (m : M S unit) : M S unit :=
  if b then m else ret tt.

Declare Scope py_scope.
Delimit Scope py_scope with py.
Notation "x <- m ;; k" := (bind m (fun x => k))
  (at level 100, m at next level, right associativity) : py_scope.
Notation "m ;;; k" := (bind m (fun _ => k))
  (at level 100, right associativity) : py_scope.

(** ** [posixpath]: the path functions the sources call *)
Module posixpath.

Definition is_sep (c : ascii) : bool := bool_decide (c = "/"%char).

(** [p[:p.rfind("/") + 1]]: everything up to and including the last
    separator, or the empty string when there is none. *)
Fixpoint upto_last_sep (p : string) : string :=
  match p with
  | EmptyString => EmptyString
  | String c r =>
      match upto_last_sep r with
      | EmptyString => if is_sep c then String c EmptyString else EmptyString
      | h => String c h
      end
  end.

(** [p[p.rfind("/") + 1:]] *)
Fixpoint after_last_sep (p : string) : string :=
  match p with
  | EmptyString => EmptyString
  | String c r =>
      match upto_last_sep r with
      | EmptyString => if is_sep c then r else String c r
      | _ => after_last_sep r
      end
  end.

(** [s == "/" * len(s)] *)
Fixpoint all_sep (s : string) : bool :=
  match s with
  | EmptyString => true
  | String c r => is_sep c && all_sep r
  end.

(** [s.rstrip("/")] *)
Fixpoint rstrip_sep (s : string) : string :=
  match s with
  | EmptyString => EmptyString
  | String c r =>
      match rstrip_sep r with
      | EmptyString => if is_sep c then EmptyString else String c EmptyString
      | r' => String c r'
      end
  end.

(** [posixpath.split]: head and tail around the last separator; trailing
    separators are stripped from the head unless it is the root. *)
Definition split (p : string) : string * string :=
  let head := upto_last_sep p in
  let tail := after_last_sep p in
  (if all_sep head then head else rstrip_sep head, tail).

Definition dirname (p : string) : string := fst (split p).

Definition isabs (p : string) : bool :=
  match p with String c _ => is_sep c | EmptyString => false end.

Definition endswith_sep (p : string) : bool :=
  match after_last_sep p, p with
  | EmptyString, String _ _ => true
  | _, _ => false
  end.

(** [posixpath.join(a, b)] for two parts. *)
Definition join (a b : string) : string :=
  if isabs b then b
  else if bool_decide (a = EmptyString) || endswith_sep a then a +:+ b
  else a +:+ "/" +:+ b.

(** [p.split("/")] *)
Fixpoint split_sep (p : string) : list string :=
  match p with
  | EmptyString => [EmptyString]
  | String c r =>
      if is_sep c then EmptyString :: split_sep r
      else match split_sep r with
           | h :: t => String c h :: t
           | [] => [String c EmptyString]
           end
  end.

(** The names a path walks through: empty components (doubled or trailing
    separators) name nothing. *)
Definition names (p : string) : list string :=
  filter (fun c => c <> EmptyString) (split_sep p).

End posixpath.

(** ** [os]: the file system the sources act on

    The file system is a finite tree without links: a map from absolute,
    normalised paths (the list of names from the root) to nodes, and the
    process's working directory.  The root always exists. *)
Module os.

Inductive Node :=
| Dir
| File (data : string).

Record FileSystem := mkFS {
  cwd : list string;
  nodes : gmap (list string) Node;
}.

Definition node_at (fs : FileSystem) (k : list string) : option Node :=
  match k with
  | [] => Some Dir
  | _ => nodes fs !! k
  end.

Definition put (k : list string) (n : Node) (fs : FileSystem) : FileSystem :=
  mkFS (cwd fs) (<[k := n]> (nodes fs)).

(** One step of a path walk from directory [cur]. *)
Definition step (cur : list string) (c : string) : list string :=
  if bool_decide (c = ".") then cur
  else if bool_decide (c = "..") then removelast cur
  else cur ++ [c].

(** Walks [names] from [cur]; every directory a name is looked up in must
    exist and be a directory (ENOENT, ENOTDIR).  The node the walk ends at
    need not exist. *)
Fixpoint walk (fs : FileSystem) (cur : list string) (names : list string)
  : Exn + list string :=
  match names with
  | [] => inr cur
  | c :: rest =>
      match node_at fs cur with
      | Some Dir => walk fs (step cur c) rest
      | Some (File _) => inl NotADirectoryError
      | None => inl FileNotFoundError
      end
  end.

Definition start (fs : FileSystem) (p : string) : list string :=
  if posixpath.isabs p then [] else cwd fs.

(** Path resolution; the empty path never resolves (ENOENT). *)
Definition resolve (fs : FileSystem) (p : string) : Exn + list string :=
  if bool_decide (p = EmptyString) then inl FileNotFoundError
  else walk fs (start fs p) (posixpath.names p).

(** [os.path.isdir(p)] *)
Definition isdir (fs : FileSystem) (p : string) : bool :=
  match resolve fs p with
  | inr k => match node_at fs k with Some Dir => true | _ => false end
  | inl _ => false
  end.

(** The content of the regular file at [p], if there is one. *)
Definition read_file (fs : FileSystem) (p : string) : option string :=
  match resolve fs p with
  | inr k => match node_at fs k with Some (File d) => Some d | _ => None end
  | inl _ => None
  end.

(** [os.mkdir(p)] *)
Definition mkdir (p : string) (fs : FileSystem) : Exn + FileSystem :=
  match resolve fs p with
  | inl e => inl e
  | inr k =>
      match node_at fs k with
      | Some _ => inl FileExistsError
      | None => inr (put k Dir fs)
      end
  end.

(** Creates the directories along [names] that are missing, as far as the
    walk gets. *)
Fixpoint make_dirs (fs : FileSystem) (cur : list string) (names : list string)
  : FileSystem :=
  match names with
  | [] => fs
  | c :: rest =>
      match node_at fs cur with
      | Some Dir =>
          let nxt := step cur c in
          match node_at fs nxt with
          | None => make_dirs (put nxt Dir fs) nxt rest
          | Some _ => make_dirs fs nxt rest
          end
      | _ => fs
      end
  end.

(** [os.makedirs(name, exist_ok=True)]: the missing intermediate
    directories are created first, then [mkdir(name)] is called, and its
    error is swallowed only if [name] is a directory by then.  With
    [name = ""] there is nothing to create, [mkdir("")] fails with ENOENT
    and [isdir("")] is false: the call raises [FileNotFoundError]. *)
Definition makedirs (name : string) (fs : FileSystem) : Exn + FileSystem :=
  let fs1 := make_dirs fs (start fs name) (removelast (posixpath.names name)) in
  match mkdir name fs1 with
  | inr fs2 => inr fs2
  | inl e => if isdir fs1 name then inr fs1 else inl e
  end.

(** [open(p, "a")] as far as the file system goes: the file is created
    empty if it is missing, and left as it is otherwise. *)
Definition open_append (p : string) (fs : FileSystem) : Exn + FileSystem :=
  match resolve fs p with
  | inl e => inl e
  | inr k =>
      match node_at fs k with
      | Some Dir => inl IsADirectoryError
      | Some (File _) =>
          if posixpath.endswith_sep p then inl NotADirectoryError else inr fs
      | None =>
          if posixpath.endswith_sep p then inl IsADirectoryError
          else inr (put k (File EmptyString) fs)
      end
  end.



(** *** Facts about the file system *)

(** [grows fs fs']: every node of [fs] is still there in [fs'], unchanged. *)
Definition grows (fs fs' : FileSystem) : Prop :=
  cwd fs' = cwd fs /\
  forall k n, node_at fs k = Some n -> node_at fs' k = Some n.

Lemma grows_refl fs : grows fs fs.
Proof. split; auto. Qed.

Lemma grows_trans fs1 fs2 fs3 : grows fs1 fs2 -> grows fs2 fs3 -> grows fs1 fs3.
Proof.
  intros [Hc1 H1] [Hc2 H2]. split; [congruence | auto].
Qed.

Lemma node_at_put_same fs k n :
  node_at fs k = None -> node_at (put k n fs) k = Some n.
Proof.
  destruct k as [|c k]; simpl; [discriminate|].
  intros _. apply lookup_insert_eq.
Qed.

Lemma node_at_put_other fs k n k' :
  k <> k' -> node_at (put k n fs) k' = node_at fs k'.
Proof.
  intros Hne. destruct k' as [|c k']; simpl; [reflexivity|].
  by apply lookup_insert_ne.
Qed.

Lemma grows_put fs k n : node_at fs k = None -> grows fs (put k n fs).
Proof.
  intros Hnone. split; [reflexivity|].
  intros k' n' Hk'. rewrite node_at_put_other; [assumption|].
  intros ->. congruence.
Qed.

Lemma walk_grows fs fs' cur ns k :
  grows fs fs' -> walk fs cur ns = inr k -> walk fs' cur ns = inr k.
Proof.
  intros [_ Hg]. revert cur. induction ns as [|c rest IH]; intros cur; simpl.
  - auto.
  - destruct (node_at fs cur) as [[|d]|] eqn:Hcur; try discriminate.
    rewrite (Hg _ _ Hcur). apply IH.
Qed.

Lemma start_grows fs fs' p : grows fs fs' -> start fs' p = start fs p.
Proof. intros [Hc _]. unfold start. by rewrite Hc. Qed.

Lemma resolve_grows fs fs' p k :
  grows fs fs' -> resolve fs p = inr k -> resolve fs' p = inr k.
Proof.
  intros Hg. unfold resolve. case_bool_decide; [discriminate|].
  rewrite (start_grows _ _ _ Hg). by apply walk_grows.
Qed.

Lemma isdir_grows fs fs' p :
  grows fs fs' -> isdir fs p = true -> isdir fs' p = true.
Proof.
  intros Hg. unfold isdir.
  destruct (resolve fs p) as [e|k] eqn:Hr; [discriminate|].
  rewrite (resolve_grows _ _ _ _ Hg Hr).
  destruct (node_at fs k) as [[|d]|] eqn:Hk; try discriminate.
  destruct Hg as [_ Hg]. by rewrite (Hg _ _ Hk).
Qed.

Lemma read_file_grows fs fs' p d :
  grows fs fs' -> read_file fs p = Some d -> read_file fs' p = Some d.
Proof.
  intros Hg. unfold read_file.
  destruct (resolve fs p) as [e|k] eqn:Hr; [discriminate|].
  rewrite (resolve_grows _ _ _ _ Hg Hr).
  destruct (node_at fs k) as [[|d']|] eqn:Hk; try discriminate.
  destruct Hg as [_ Hg]. by rewrite (Hg _ _ Hk).
Qed.

Lemma make_dirs_grows ns : forall fs cur, grows fs (make_dirs fs cur ns).
Proof.
  induction ns as [|c rest IH]; intros fs cur; simpl.
  - apply grows_refl.
  - destruct (node_at fs cur) as [[|d]|]; try apply grows_refl.
    destruct (node_at fs (step cur c)) eqn:Hn; [apply IH|].
    eapply grows_trans; [by apply grows_put | apply IH].
Qed.

(** Along a path that resolves, there is nothing left to create. *)
Lemma make_dirs_resolved fs ns : forall cur k,
  walk fs cur ns = inr k -> make_dirs fs cur (removelast ns) = fs.
Proof.
  induction ns as [|c rest IH]; intros cur k; simpl; [reflexivity|].
  destruct (node_at fs cur) as [[|d]|] eqn:Hcur; try discriminate.
  destruct rest as [|c2 r2]; [reflexivity|].
  intros Hw. change (make_dirs fs cur (c :: removelast (c2 :: r2)) = fs).
  simpl make_dirs. rewrite Hcur.
  assert (Hn : node_at fs (step cur c) = Some Dir).
  { simpl in Hw. by destruct (node_at fs (step cur c)) as [[|d]|]. }
  rewrite Hn. by apply (IH _ k).
Qed.

Lemma mkdir_ok p fs fs' :
  mkdir p fs = inr fs' -> grows fs fs' /\ isdir fs' p = true.
Proof.
  unfold mkdir. destruct (resolve fs p) as [e|k] eqn:Hr; [discriminate|].
  destruct (node_at fs k) eqn:Hk; [discriminate|].
  intros [= <-]. pose proof (grows_put fs k Dir Hk) as Hg.
  split; [assumption|]. unfold isdir.
  rewrite (resolve_grows _ _ _ _ Hg Hr). by rewrite node_at_put_same.
Qed.

(** [makedirs] returns only with the directory in place, and touches no
    node that was there. *)
Lemma makedirs_ok name fs fs' :
  makedirs name fs = inr fs' -> grows fs fs' /\ isdir fs' name = true.
Proof.
  unfold makedirs.
  set (fs1 := make_dirs fs (start fs name) (removelast (posixpath.names name))).
  assert (Hg1 : grows fs fs1) by apply make_dirs_grows.
  destruct (mkdir name fs1) as [e|fs2] eqn:Hmk.
  - destruct (isdir fs1 name) eqn:Hd; [|discriminate].
    intros [= <-]. auto.
  - intros [= <-]. apply mkdir_ok in Hmk as [Hg2 Hd].
    split; [by eapply grows_trans | assumption].
Qed.

(** [exist_ok=True]: on an existing directory [makedirs] changes nothing. *)
Lemma makedirs_existing name fs :
  isdir fs name = true -> makedirs name fs = inr fs.
Proof.
  unfold isdir, makedirs. intros Hd.
  destruct (resolve fs name) as [e|k] eqn:Hr; [discriminate|].
  destruct (node_at fs k) as [[|d]|] eqn:Hk; try discriminate.
  assert (Hmd : make_dirs fs (start fs name) (removelast (posixpath.names name)) = fs).
  { unfold resolve in Hr. case_bool_decide; [discriminate|].
    by apply (make_dirs_resolved _ _ _ k). }
  rewrite Hmd. unfold mkdir, isdir. by rewrite Hr, Hk.
Qed.

Lemma makedirs_empty fs : makedirs EmptyString fs = inl FileNotFoundError.
Proof. reflexivity. Qed.

(** [open(p, "a")] keeps every node, leaves a regular file at [p] whose
    content is what was there before (nothing, for a new file), and can be
    repeated. *)
Lemma open_append_ok p fs fs' :
  open_append p fs = inr fs' ->
  grows fs fs' /\
  read_file fs' p = Some (default EmptyString (read_file fs p)) /\
  open_append p fs' = inr fs'.
Proof.
  unfold open_append, read_file.
  destruct (resolve fs p) as [e|k] eqn:Hr; [discriminate|].
  destruct (node_at fs k) as [[|d]|] eqn:Hk; [discriminate| |].
  - destruct (posixpath.endswith_sep p) eqn:He; [discriminate|].
    intros [= <-]. rewrite Hr, Hk. split; [apply grows_refl | auto].
  - destruct (posixpath.endswith_sep p) eqn:He; [discriminate|].
    intros [= <-]. pose proof (grows_put fs k (File EmptyString) Hk) as Hg.
    rewrite (resolve_grows _ _ _ _ Hg Hr), node_at_put_same by assumption.
    auto.
Qed.

End os.

(** ** [hssl/session/items/log_file.py] *)
Module log_file.

(** The file object [open(path, "a")] returns.  [fileno] tells two file
    objects apart; two streams on the same path are different objects. *)
Record Stream := mkStream {
  fileno : nat;
  stream_name : string;
  stream_mode : string;
}.

(** [Formatter(fancy_formatting=...)] of the package's logging module. *)
Record Formatter := mkFormatter {
  fancy_formatting : bool;
}.

(** A [logging.StreamHandler]; [handler_id] is the object's identity, which
    is what [Logger.addHandler] and [Logger.removeHandler] compare. *)
Record Handler := mkHandler {
  handler_id : nat;
  handler_stream : Stream;
  handler_formatter : option Formatter;
}.

#[global] Instance Stream_eq_dec : EqDecision Stream.
Proof. solve_decision. Defined.
#[global] Instance Formatter_eq_dec : EqDecision Formatter.
Proof. solve_decision. Defined.
#[global] Instance Handler_eq_dec : EqDecision Handler.
Proof. solve_decision. Defined.

(** [logging.DEBUG] *)
Definition DEBUG : Z := 10.

(** What the setter does to the world outside its two globals, in the order
    it happens. *)
Inductive Event :=
| EvRemoveHandler (h : Handler)
| EvClose (s : Stream)
| EvLog (level : Z) (msg : string) (args : list Value)
| EvOpen (s : Stream)
| EvAddHandler (h : Handler).

(** The module's globals and what they refer to. *)
Record World := mkWorld {
  _LOG_HANDLER : option Handler;
  _FILE_STREAM : option Stream;
  LOGGER : list Handler;        (* LOGGER.handlers *)
  fs : os.FileSystem;
  next_id : nat;                (* the next fresh object identity *)
  trace : list Event;           (* oldest first *)
}.

Definition set_LOG_HANDLER (h : option Handler) : M World unit :=
  modify (fun w => mkWorld h (_FILE_STREAM w) (LOGGER w) (fs w) (next_id w) (trace w)).

Definition set_FILE_STREAM (s : option Stream) : M World unit :=
  modify (fun w => mkWorld (_LOG_HANDLER w) s (LOGGER w) (fs w) (next_id w) (trace w)).

Definition emit (e : Event) : M World unit :=
  modify (fun w => mkWorld (_LOG_HANDLER w) (_FILE_STREAM w) (LOGGER w) (fs w)
                           (next_id w) (trace w ++ [e])).

Definition same_object (h h' : Handler) : bool :=
  bool_decide (handler_id h = handler_id h').

(** [list.remove]: drops the first element that is the object [h]. *)
Fixpoint remove_first (h : Handler) (hs : list Handler) : list Handler :=
  match hs with
  | [] => []
  | h' :: rest => if same_object h h' then rest else h' :: remove_first h rest
  end.

(** [LOGGER.removeHandler(h)] *)
Definition removeHandler (h : Handler) : M World unit :=
  (modify (fun w => mkWorld (_LOG_HANDLER w) (_FILE_STREAM w)
                            (remove_first h (LOGGER w)) (fs w) (next_id w) (trace w)) ;;;
   emit (EvRemoveHandler h))%py.

(** [LOGGER.addHandler(h)]: appended unless it is already there. *)
Definition addHandler (h : Handler) : M World unit :=
  (modify (fun w => mkWorld (_LOG_HANDLER w) (_FILE_STREAM w)
                            (if existsb (same_object h) (LOGGER w) then LOGGER w
                             else LOGGER w ++ [h])
                            (fs w) (next_id w) (trace w)) ;;;
   emit (EvAddHandler h))%py.

(** What one event does to the set of open streams. *)
Definition after (e : Event) (open : list Stream) : list Stream :=
  match e with
  | EvOpen s => open ++ [s]
  | EvClose s => filter (fun s' => s' <> s) open
  | _ => open
  end.

(** The streams that are open after a trace, given those open before it. *)
Fixpoint live_from (open : list Stream) (tr : list Event) : list Stream :=
  match tr with
  | [] => open
  | e :: rest => live_from (after e open) rest
  end.

(** The streams that a trace has opened and not closed. *)
Definition live (tr : list Event) : list Stream := live_from [] tr.

Section Setter.

(** Whether flushing the stream [s] fails when it is closed after the
    events [tr]: the device is full, or gone.  This is for the environment
    to decide, so everything below holds for every such answer. *)
Variable flush_fails : Stream -> list Event -> bool.

(** [stream.close()]: the stream is flushed and closed.  When the flush
    fails the stream is closed all the same and [OSError] is raised.
    Closing a stream that is closed already does nothing. *)
Definition close (s : Stream) : M World unit :=
  fun w =>
    let w' := mkWorld (_LOG_HANDLER w) (_FILE_STREAM w) (LOGGER w) (fs w)
                      (next_id w) (trace w ++ [EvClose s]) in
    if bool_decide (s ∈ live (trace w)) && flush_fails s (trace w)
    then (Raise OSError, w')
    else (Ok tt, w').

(** [log(level, msg, *args)] of the package's logging module. *)
Definition log (level : Z) (msg : string) (args : list Value) : M World unit :=
  emit (EvLog level msg args).

(** [os.makedirs(name, exist_ok=True)] *)
Definition makedirs (name : string) : M World unit :=
  fun w => match os.makedirs name (fs w) with
           | inl e => (Raise e, w)
           | inr fs' => (Ok tt, mkWorld (_LOG_HANDLER w) (_FILE_STREAM w) (LOGGER w)
                                        fs' (next_id w) (trace w))
           end.

(** [open(path, "a")] *)
Definition open_a (path : string) : M World Stream :=
  fun w => match os.open_append path (fs w) with
           | inl e => (Raise e, w)
           | inr fs' =>
               let s := mkStream (next_id w) path "a" in
               (Ok s, mkWorld (_LOG_HANDLER w) (_FILE_STREAM w) (LOGGER w)
                              fs' (S (next_id w)) (trace w ++ [EvOpen s]))
           end.

(** [StreamHandler(stream)] *)
Definition StreamHandler (s : Stream) : M World Handler :=
  fun w => (Ok (mkHandler (next_id w) s None),
            mkWorld (_LOG_HANDLER w) (_FILE_STREAM w) (LOGGER w) (fs w)
                    (S (next_id w)) (trace w)).

(** [_LOG_HANDLER.setFormatter(f)] *)
Definition setFormatter (f : Formatter) : M World unit :=
  modify (fun w =>
    mkWorld (option_map (fun h => mkHandler (handler_id h) (handler_stream h) (Some f))
                        (_LOG_HANDLER w))
            (_FILE_STREAM w) (LOGGER w) (fs w) (next_id w) (trace w)).

(** The setter of the [log_file] item, statement by statement. *)
Definition _setter (path : Value) : M World unit :=
  (w <- get ;;
   match _LOG_HANDLER w with
   | Some h => removeHandler h ;;; set_LOG_HANDLER None
   | None => ret tt
   end ;;;
   w <- get ;;
   match _FILE_STREAM w with
   | Some s => close s ;;; set_FILE_STREAM None
   | None => ret tt
   end ;;;
   match path with
   | VStr path =>
       log DEBUG "opening log file stream: %s" [VStr path] ;;;
       makedirs (posixpath.dirname path) ;;;
       f <- open_a path ;;
       set_FILE_STREAM (Some f) ;;;
       h <- StreamHandler f ;;
       set_LOG_HANDLER (Some h) ;;;
       setFormatter (mkFormatter false) ;;;
       w <- get ;;
       match _LOG_HANDLER w with
       | Some h => addHandler h
       | None => ret tt
       end
   | _ => ret tt
   end)%py.

(** The world right after the module is imported: both globals are [None],
    the logger has whatever handlers [others] the logging module installed,
    nothing has happened yet. *)
Definition initial (others : list Handler) (files : os.FileSystem) (n : nat) : World :=
  mkWorld None None others files n [].

(** The streams of this item that are open in [w]. *)
Definition open_streams (w : World) : list Stream := live (trace w).

(** At every point of the trace, at most one stream is open. *)
Definition at_most_one_open (tr : list Event) : Prop :=
  forall pre, pre `prefix_of` tr -> length (live pre) <= 1.

(** The same, event by event. *)
Fixpoint bounded (open : list Stream) (tr : list Event) : Prop :=
  match tr with
  | [] => length open <= 1
  | e :: rest => length open <= 1 /\ bounded (after e open) rest
  end.

(** The rest of the program, or another process, changes the files. *)
Definition with_fs (files : os.FileSystem) (w : World) : World :=
  mkWorld (_LOG_HANDLER w) (_FILE_STREAM w) (LOGGER w) files (next_id w) (trace w).

(** The worlds the module can be in: it is imported once, and from then on
    only [_setter] touches its globals, the handler it installed and the
    stream it opened; the files may change in between. *)
Inductive reachable (others : list Handler) : World -> Prop :=
| reach_initial files n :
    Forall (fun h => handler_id h < n) others ->
    reachable others (initial others files n)
| reach_setter w v :
    reachable others w -> reachable others (snd (_setter v w))
| reach_files w files :
    reachable others w -> reachable others (with_fs files w).

(** What holds in every reachable world. *)
Definition consistent (others : list Handler) (w : World) : Prop :=
  Forall (fun h => handler_id h < next_id w) others /\
  bounded [] (trace w) /\
  match _LOG_HANDLER w, _FILE_STREAM w with
  | Some h, Some s =>
      handler_stream h = s /\ handler_id h < next_id w /\
      Forall (fun h' => handler_id h' <> handler_id h) others /\
      LOGGER w = others ++ [h] /\ live (trace w) = [s]
  | None, None => LOGGER w = others /\ live (trace w) = []
  | None, Some s =>
      (* a close that raised: the stream is closed, the global still set *)
      LOGGER w = others /\ live (trace w) = []
  | Some _, None => False
  end.

(** Events that undo, and events that establish. *)
Definition is_teardown (e : Event) : bool :=
  match e with EvRemoveHandler _ | EvClose _ => true | _ => false end.

Definition is_setup (e : Event) : bool :=
  match e with EvOpen _ | EvAddHandler _ => true | _ => false end.

(** What an observer of the item can tell: the path of the stream the
    module holds, the path the installed handler writes to, the paths of
    the item's open streams, how many handlers the logger has, and the
    files. *)
Record Observable := mkObservable {
  held_path : option string;
  handler_path : option string;
  open_paths : list string;
  logger_size : nat;
  files : os.FileSystem;
}.

Definition observable (w : World) : Observable :=
  mkObservable (stream_name <$> _FILE_STREAM w)
               ((fun h => stream_name (handler_stream h)) <$> _LOG_HANDLER w)
               (stream_name <$> open_streams w)
               (length (LOGGER w))
               (fs w).

(** *** The setter in closed form *)

(** What a call undoes first: the events, and the world they leave. *)
Definition teardown_events (w : World) : list Event :=
  match _LOG_HANDLER w with Some h => [EvRemoveHandler h] | None => [] end ++
  match _FILE_STREAM w with Some s => [EvClose s] | None => [] end.

Definition torn_down (w : World) : World :=
  mkWorld None None
    (match _LOG_HANDLER w with
     | Some h => remove_first h (LOGGER w)
     | None => LOGGER w
     end)
    (fs w) (next_id w) (trace w ++ teardown_events w).

(** Whether the call's [close()] raises: a stream is held, it is open, and
    its flush fails at that point. *)
Definition closing_fails (w : World) : bool :=
  match _FILE_STREAM w with
  | Some s =>
      let tr := trace w ++ match _LOG_HANDLER w with
                           | Some h => [EvRemoveHandler h]
                           | None => []
                           end in
      bool_decide (s ∈ live tr) && flush_fails s tr
  | None => false
  end.

(** The world a call leaves when its [close()] raises: the handler is off
    the logger and forgotten, the stream is closed but still held. *)
Definition close_failed (w : World) : World :=
  mkWorld None (_FILE_STREAM w) (LOGGER (torn_down w)) (fs w) (next_id w)
          (trace w ++ teardown_events w).

Definition opening (path : string) : Event :=
  EvLog DEBUG "opening log file stream: %s" [VStr path].

Definition new_stream (w : World) (path : string) : Stream :=
  mkStream (next_id w) path "a".

Definition new_handler (w : World) (path : string) : Handler :=
  mkHandler (S (next_id w)) (new_stream w path) (Some (mkFormatter false)).

(** The world a call with the string [path] leaves, by where it stops. *)
Definition set_up (path : string) (w : World) : Result unit * World :=
  let t := torn_down w in
  match os.makedirs (posixpath.dirname path) (fs w) with
  | inl e =>
      (Raise e, mkWorld None None (LOGGER t) (fs w) (next_id w)
                        (trace t ++ [opening path]))
  | inr fs1 =>
      match os.open_append path fs1 with
      | inl e =>
          (Raise e, mkWorld None None (LOGGER t) fs1 (next_id w)
                            (trace t ++ [opening path]))
      | inr fs2 =>
          let s := new_stream w path in
          let h := new_handler w path in
          (Ok tt,
           mkWorld (Some h) (Some s)
                   (if existsb (same_object h) (LOGGER t) then LOGGER t
                    else LOGGER t ++ [h])
                   fs2 (S (S (next_id w)))
                   (trace t ++ [opening path; EvOpen s; EvAddHandler h]))
      end
  end.

Lemma setter_not_str v w :
  isinstance_str v = false ->
  _setter v w =
    if closing_fails w then (Raise OSError, close_failed w) else (Ok tt, torn_down w).
Proof.
  intros Hv. destruct w as [[h|] [s|] L f n tr];
    destruct v; try discriminate Hv;
    cbv [_setter bind get ret modify removeHandler close emit set_LOG_HANDLER
         set_FILE_STREAM torn_down teardown_events closing_fails close_failed];
    cbn [_LOG_HANDLER _FILE_STREAM LOGGER fs next_id trace fst snd];
    rewrite ?app_nil_r;
    try (destruct (bool_decide _ && flush_fails _ _));
    cbn [_LOG_HANDLER _FILE_STREAM LOGGER fs next_id trace fst snd];
    rewrite ?app_nil_r, <- ?app_assoc; reflexivity.
Qed.

Lemma setter_str path w :
  _setter (VStr path) w =
    if closing_fails w then (Raise OSError, close_failed w) else set_up path w.
Proof.
  destruct w as [[h|] [s|] L f n tr];
    cbv [_setter bind get ret modify removeHandler close emit set_LOG_HANDLER
         set_FILE_STREAM log makedirs open_a StreamHandler setFormatter
         addHandler set_up torn_down teardown_events new_stream new_handler
         opening closing_fails close_failed];
    cbn [_LOG_HANDLER _FILE_STREAM LOGGER fs next_id trace fst snd];
    rewrite ?app_nil_r;
    try (destruct (bool_decide _ && flush_fails _ _));
    cbn [_LOG_HANDLER _FILE_STREAM LOGGER fs next_id trace fst snd];
    rewrite ?app_nil_r, <- ?app_assoc; try reflexivity;
    (destruct (os.makedirs (posixpath.dirname path) f) as [e|fs1]; simpl;
     [ rewrite ?app_nil_r, <- ?app_assoc; reflexivity |
       destruct (os.open_append path fs1) as [e|fs2]; simpl;
       rewrite ?app_nil_r, <- ?app_assoc; reflexivity ]).
Qed.

(** *** Traces *)

Lemma live_from_app o a b : live_from o (a ++ b) = live_from (live_from o a) b.
Proof. revert o. induction a as [|e a IH]; intros o; simpl; auto. Qed.

Lemma bounded_app o a b :
  bounded o (a ++ b) <-> bounded o a /\ bounded (live_from o a) b.
Proof.
  revert o. induction a as [|e a IH]; intros o; simpl.
  - destruct b; simpl; tauto.
  - rewrite IH. destruct a; simpl; tauto.
Qed.

Lemma bounded_prefixes o tr :
  bounded o tr <-> forall pre, pre `prefix_of` tr -> length (live_from o pre) <= 1.
Proof.
  revert o. induction tr as [|e tr IH]; intros o; simpl.
  - split.
    + intros Ho pre Hpre. apply prefix_nil_inv in Hpre as ->. exact Ho.
    + intros H. apply (H []), prefix_nil.
  - rewrite IH. split.
    + intros [Ho H] pre Hpre. destruct pre as [|e' pre]; [exact Ho|].
      pose proof (prefix_cons_inv_1 _ _ _ _ Hpre) as ->.
      apply prefix_cons_inv_2 in Hpre. simpl. auto.
    + intros H. split; [apply (H []), prefix_nil|].
      intros pre Hpre. apply (H (e :: pre)). by apply prefix_cons.
Qed.

Lemma bounded_at_most_one tr : bounded [] tr <-> at_most_one_open tr.
Proof. apply bounded_prefixes. Qed.

(** *** The invariant *)

Lemma remove_first_absent h hs :
  Forall (fun h' => handler_id h' <> handler_id h) hs -> remove_first h hs = hs.
Proof.
  induction 1 as [|h' hs Hh' _ IH]; simpl; [reflexivity|].
  unfold same_object. rewrite bool_decide_eq_false_2 by congruence.
  by rewrite IH.
Qed.

Lemma remove_first_last h hs :
  Forall (fun h' => handler_id h' <> handler_id h) hs ->
  remove_first h (hs ++ [h]) = hs.
Proof.
  induction 1 as [|h' hs Hh' _ IH]; simpl.
  - unfold same_object. by rewrite bool_decide_eq_true_2.
  - unfold same_object. rewrite bool_decide_eq_false_2 by congruence.
    by rewrite IH.
Qed.

Lemma existsb_same_object_fresh h hs :
  Forall (fun h' => handler_id h' <> handler_id h) hs ->
  existsb (same_object h) hs = false.
Proof.
  induction 1 as [|h' hs Hh' _ IH]; simpl; [reflexivity|].
  unfold same_object at 1. rewrite bool_decide_eq_false_2 by congruence.
  exact IH.
Qed.

Lemma close_only_stream (s : Stream) : filter (fun s' => s' <> s) [s] = [].
Proof.
  rewrite filter_cons, decide_False; [reflexivity | intros H; by apply H].
Qed.

(** After the teardown the logger is back to the other handlers, and no
    stream of the item is open. *)
Lemma torn_down_consistent others w :
  consistent others w ->
  LOGGER (torn_down w) = others /\
  live (trace (torn_down w)) = [] /\
  bounded [] (trace (torn_down w)).
Proof.
  intros (Hids & Hb & Hst). unfold torn_down, teardown_events, live in *. simpl.
  rewrite live_from_app, bounded_app.
  destruct (_LOG_HANDLER w) as [h|], (_FILE_STREAM w) as [s|]; try contradiction.
  - destruct Hst as (Hs & Hlt & Hfresh & HL & Hlive).
    rewrite HL, Hlive, remove_first_last by assumption. simpl.
    rewrite close_only_stream. simpl.
    repeat split; auto; lia.
  - destruct Hst as (HL & Hlive). rewrite Hlive. simpl.
    rewrite filter_nil. simpl. repeat split; auto; lia.
  - destruct Hst as (HL & Hlive). rewrite Hlive. simpl.
    repeat split; auto; lia.
Qed.

(** A close that raised leaves a consistent world. *)
Lemma close_failed_consistent others w :
  consistent others w -> closing_fails w = true -> consistent others (close_failed w).
Proof.
  intros Hc Hf. pose proof (torn_down_consistent _ _ Hc) as (HL & Hlive & Hb).
  destruct Hc as (Hids & _ & _).
  unfold closing_fails in Hf.
  destruct (_FILE_STREAM w) as [s|] eqn:Hs; [|discriminate Hf].
  unfold consistent, close_failed. simpl. rewrite Hs.
  change (trace w ++ teardown_events w) with (trace (torn_down w)).
  auto.
Qed.

Lemma consistent_initial others files n :
  Forall (fun h => handler_id h < n) others ->
  consistent others (initial others files n).
Proof.
  intros Hids. unfold consistent, initial; simpl.
  repeat split; auto; lia.
Qed.

Lemma set_up_consistent others path w :
  consistent others w -> consistent others (snd (set_up path w)).
Proof.
  intros Hc. pose proof (torn_down_consistent _ _ Hc) as (HL & Hlive & Hb).
  pose proof Hc as (Hids & _ & _).
  unfold set_up.
  set (t := torn_down w) in *. clearbody t. unfold live in *.
  destruct (os.makedirs _ _) as [e|fs1]; simpl.
  - unfold consistent; simpl. rewrite bounded_app. unfold live.
    rewrite live_from_app, Hlive, HL. simpl. repeat split; auto.
  - destruct (os.open_append _ _) as [e|fs2]; simpl.
    + unfold consistent; simpl. rewrite bounded_app. unfold live.
      rewrite live_from_app, Hlive, HL. simpl. repeat split; auto.
    + assert (Hfresh : Forall (fun h' => handler_id h' <> handler_id (new_handler w path)) others).
      { eapply Forall_impl; [exact Hids|]. simpl. intros; lia. }
      unfold consistent; simpl. rewrite bounded_app. unfold live.
      rewrite live_from_app, Hlive, HL, existsb_same_object_fresh by assumption.
      simpl. repeat split; auto; try lia.
      eapply Forall_impl; [exact Hids|]. simpl. intros; lia.
Qed.

Lemma torn_down_is_consistent others w :
  consistent others w -> consistent others (torn_down w).
Proof.
  intros Hc. pose proof (torn_down_consistent _ _ Hc) as (HL & Hlive & Hb).
  destruct Hc as (Hids & _ & _).
  assert (Hn : next_id (torn_down w) = next_id w) by reflexivity.
  assert (Hh : _LOG_HANDLER (torn_down w) = None) by reflexivity.
  assert (Hs : _FILE_STREAM (torn_down w) = None) by reflexivity.
  set (t := torn_down w) in *. clearbody t.
  unfold consistent. rewrite HL, Hlive, Hn, Hh, Hs. repeat split; auto.
Qed.

Lemma consistent_setter others w v :
  consistent others w -> consistent others (snd (_setter v w)).
Proof.
  intros Hc.
  destruct (isinstance_str v) eqn:Hv.
  - destruct v; try discriminate Hv. rewrite setter_str.
    destruct (closing_fails w) eqn:Hf; simpl.
    + by apply close_failed_consistent.
    + by apply set_up_consistent.
  - rewrite setter_not_str by assumption.
    destruct (closing_fails w) eqn:Hf; simpl.
    + by apply close_failed_consistent.
    + by apply torn_down_is_consistent.
Qed.

Lemma consistent_with_fs others w files :
  consistent others w -> consistent others (with_fs files w).
Proof. intros Hc. exact Hc. Qed.

Lemma reachable_consistent others w : reachable others w -> consistent others w.
Proof.
  induction 1.
  - by apply consistent_initial.
  - by apply consistent_setter.
  - by apply consistent_with_fs.
Qed.

(** *** What a call leaves behind *)

(** A call that returns has closed what it held without an error. *)
Lemma setter_returns_closed v w :
  fst (_setter v w) = Ok tt -> closing_fails w = false.
Proof.
  destruct (closing_fails w) eqn:Hf; [|reflexivity].
  destruct (isinstance_str v) eqn:Hv.
  - destruct v; try discriminate Hv. rewrite setter_str, Hf. discriminate.
  - rewrite setter_not_str, Hf by assumption. discriminate.
Qed.

(** A call that returns went through both file-system steps. *)
Lemma setter_str_returns path w :
  fst (_setter (VStr path) w) = Ok tt ->
  exists fs1 fs2,
    os.makedirs (posixpath.dirname path) (fs w) = inr fs1 /\
    os.open_append path fs1 = inr fs2 /\
    _FILE_STREAM (snd (_setter (VStr path) w)) = Some (new_stream w path) /\
    _LOG_HANDLER (snd (_setter (VStr path) w)) = Some (new_handler w path) /\
    fs (snd (_setter (VStr path) w)) = fs2.
Proof.
  intros Hret. pose proof (setter_returns_closed _ _ Hret) as Hf. revert Hret.
  rewrite setter_str, Hf. unfold set_up.
  destruct (os.makedirs _ _) as [e|fs1] eqn:Hmk; [discriminate|].
  destruct (os.open_append _ _) as [e|fs2] eqn:Hop; [discriminate|].
  intros _. exists fs1, fs2. simpl. repeat split; auto.
Qed.

Lemma setter_trace v w :
  exists up,
    trace (snd (_setter v w)) = trace w ++ teardown_events w ++ up /\
    Forall (fun e => is_teardown e = false) up.
Proof.
  destruct (isinstance_str v) eqn:Hv.
  - destruct v; try discriminate Hv. rewrite setter_str.
    destruct (closing_fails w).
    + exists []. simpl. by rewrite app_nil_r.
    + unfold set_up.
      destruct (os.makedirs _ _) as [e|fs1];
        [|destruct (os.open_append _ _) as [e|fs2]]; simpl;
        eexists; rewrite <- app_assoc; (split; [reflexivity|]);
        repeat constructor.
  - rewrite setter_not_str by assumption.
    destruct (closing_fails w); exists []; simpl; by rewrite app_nil_r.
Qed.

Lemma teardown_events_no_setup w :
  Forall (fun e => is_setup e = false) (teardown_events w).
Proof.
  unfold teardown_events.
  destruct (_LOG_HANDLER w), (_FILE_STREAM w); repeat constructor.
Qed.

Lemma setter_handler_fresh v w h' :
  _LOG_HANDLER (snd (_setter v w)) = Some h' -> handler_id h' = S (next_id w).
Proof.
  destruct (isinstance_str v) eqn:Hv.
  - destruct v; try discriminate Hv. rewrite setter_str.
    destruct (closing_fails w); [discriminate|]. unfold set_up.
    destruct (os.makedirs _ _) as [e|fs1];
      [|destruct (os.open_append _ _) as [e|fs2]]; simpl; try discriminate.
    by intros [= <-].
  - rewrite setter_not_str by assumption.
    destruct (closing_fails w); discriminate.
Qed.

(** The handler a call found installed is no longer among the logger's
    handlers when the call is over. *)
Lemma setter_removes_handler others w v h :
  consistent others w ->
  _LOG_HANDLER w = Some h ->
  ~ In h (LOGGER (snd (_setter v w))).
Proof.
  intros Hc Hh. pose proof (consistent_setter _ _ v Hc) as (_ & _ & Hst').
  destruct Hc as (_ & _ & Hst). rewrite Hh in Hst.
  destruct (_FILE_STREAM w) as [s|]; [|contradiction].
  destruct Hst as (_ & Hlt & Hfresh & _ & _).
  assert (Hothers : ~ In h others).
  { intros Hin. rewrite Forall_forall in Hfresh.
    apply list_elem_of_In in Hin. by apply (Hfresh h Hin). }
  destruct (_LOG_HANDLER (snd (_setter v w))) as [h'|] eqn:Hh'.
  - apply setter_handler_fresh in Hh'.
    destruct (_FILE_STREAM (snd (_setter v w))); [|contradiction].
    destruct Hst' as (_ & _ & _ & -> & _).
    rewrite in_app_iff. intros [Hin|[->|[]]]; [auto | lia].
  - destruct (_FILE_STREAM (snd (_setter v w)));
      destruct Hst' as (-> & _); exact Hothers.
Qed.

(** An example world: a fresh import next to a console handler, in a home
    directory that holds an older log. *)
Definition example_files : os.FileSystem :=
  os.mkFS ["home"; "u"]
    {[ ["home"] := os.Dir; ["home"; "u"] := os.Dir;
       ["home"; "u"; "old.log"] := os.File "earlier run" ]}.

Definition console : Handler := mkHandler 0 (mkStream 2 "<stderr>" "w") None.

Definition example_world : World := initial [console] example_files 3.

Lemma example_world_reachable : reachable [console] example_world.
Proof. apply reach_initial. repeat constructor. Qed.

(** C3: every call of the setter first removes the handler it finds
    installed and closes the stream it finds open, and only then opens a
    stream or installs a handler; so at every point of every run at most one
    stream opened by the item is open. *)
Theorem setter_releases_before_acquiring others w v :
  reachable others w ->
  exists up,
    trace (snd (_setter v w)) = trace w ++ teardown_events w ++ up /\
    Forall (fun e => is_setup e = false) (teardown_events w) /\
    Forall (fun e => is_teardown e = false) up /\
    (forall h, _LOG_HANDLER w = Some h ->
       In (EvRemoveHandler h) (teardown_events w) /\
       ~ In h (LOGGER (snd (_setter v w)))) /\
    (forall s, _FILE_STREAM w = Some s -> In (EvClose s) (teardown_events w)) /\
    at_most_one_open (trace (snd (_setter v w))).
Proof.
  intros Hr. pose proof (reachable_consistent _ _ Hr) as Hc.
  destruct (setter_trace v w) as (up & Htr & Hup).
  exists up. split; [exact Htr|].
  split; [apply teardown_events_no_setup|].
  split; [exact Hup|].
  split; [|split].
  - intros h Hh. split; [|by eapply setter_removes_handler].
    unfold teardown_events. rewrite Hh. simpl. auto.
  - intros s Hs. unfold teardown_events. rewrite Hs.
    apply in_or_app. right. simpl. auto.
  - apply bounded_at_most_one.
    by destruct (consistent_setter _ _ v Hc) as (_ & Hb & _).
Qed.

(** C5, as the code has it: a call with a value that is not a string
    ([None], [Unset]), when closing the stream the module holds does not
    fail, returns normally and leaves both globals [None], no handler of
    the item on the logger, no stream of the item open; it opens nothing and
    leaves the files alone. *)
Theorem setter_unset_releases_everything others w v :
  reachable others w ->
  isinstance_str v = false ->
  closing_fails w = false ->
  fst (_setter v w) = Ok tt /\
  _LOG_HANDLER (snd (_setter v w)) = None /\
  _FILE_STREAM (snd (_setter v w)) = None /\
  LOGGER (snd (_setter v w)) = others /\
  open_streams (snd (_setter v w)) = [] /\
  fs (snd (_setter v w)) = fs w /\
  trace (snd (_setter v w)) = trace w ++ teardown_events w /\
  Forall (fun e => is_setup e = false) (teardown_events w).
Proof.
  intros Hr Hv Hf. pose proof (reachable_consistent _ _ Hr) as Hc.
  destruct (torn_down_consistent _ _ Hc) as (HL & Hlive & _).
  rewrite setter_not_str, Hf by assumption. simpl fst. simpl snd.
  repeat split; auto using teardown_events_no_setup.
Qed.

(** C8, as the code has it: after a call that returns, the two globals are
    both set when the argument was a string and both [None] when it was
    not; after a call that raises, [_LOG_HANDLER] is [None], and unless it
    was [close()] that raised the argument was a string and [_FILE_STREAM]
    is [None] as well.  So the globals are paired whenever closing does not
    fail. *)
Theorem setter_globals_paired w v :
  (closing_fails w = false ->
   (is_Some (_LOG_HANDLER (snd (_setter v w))) <->
    is_Some (_FILE_STREAM (snd (_setter v w))))) /\
  match fst (_setter v w) with
  | Ok _ =>
      (is_Some (_LOG_HANDLER (snd (_setter v w))) <-> isinstance_str v = true) /\
      (is_Some (_FILE_STREAM (snd (_setter v w))) <-> isinstance_str v = true)
  | Raise _ =>
      _LOG_HANDLER (snd (_setter v w)) = None /\
      (closing_fails w = false ->
       isinstance_str v = true /\ _FILE_STREAM (snd (_setter v w)) = None)
  end.
Proof.
  destruct (isinstance_str v) eqn:Hv.
  - destruct v; try discriminate Hv. rewrite setter_str.
    destruct (closing_fails w); [simpl; split; [discriminate|auto]; split; [reflexivity|discriminate]|].
    unfold set_up.
    destruct (os.makedirs _ _) as [e|fs1];
      [|destruct (os.open_append _ _) as [e|fs2]]; simpl;
      rewrite ?is_Some_alt; simpl; intuition eauto.
  - rewrite setter_not_str by assumption.
    destruct (closing_fails w); simpl.
    + split; [discriminate|]. split; [reflexivity|discriminate].
    + rewrite !is_Some_alt. simpl. intuition congruence.
Qed.

(** What an observer sees in a consistent world whose globals are set. *)
Lemma observable_set others w s h :
  consistent others w ->
  _FILE_STREAM w = Some s ->
  _LOG_HANDLER w = Some h ->
  observable w =
    mkObservable (Some (stream_name s)) (Some (stream_name (handler_stream h)))
                 [stream_name s] (S (length others)) (fs w).
Proof.
  intros (_ & _ & Hst) Hs Hh. rewrite Hs, Hh in Hst.
  destruct Hst as (_ & _ & _ & HL & Hlive).
  unfold observable, open_streams. rewrite Hs, Hh, HL, Hlive. simpl.
  rewrite length_app. simpl. f_equal. lia.
Qed.

(** C6, as the code has it: calling the setter a second time with the same
    value, right after a call that returned and when closing the stream
    that call opened does not fail, returns as well, and an observer cannot
    tell the world after the second call from the world after the first:
    the same path is held and open, the same number of handlers is
    installed, and the files are the same. *)
Theorem setter_twice_same_value others w v :
  reachable others w ->
  fst (_setter v w) = Ok tt ->
  closing_fails (snd (_setter v w)) = false ->
  fst (_setter v (snd (_setter v w))) = Ok tt /\
  observable (snd (_setter v (snd (_setter v w)))) =
    observable (snd (_setter v w)).
Proof.
  intros Hr Hret Hf2.
  pose proof (setter_returns_closed _ _ Hret) as Hf1.
  assert (Hc1 : consistent others (snd (_setter v w))).
  { apply reachable_consistent. by apply reach_setter. }
  assert (Hc2 : consistent others (snd (_setter v (snd (_setter v w))))).
  { apply reachable_consistent. by do 2 apply reach_setter. }
  destruct (isinstance_str v) eqn:Hv.
  - destruct v as [| | | |path|]; try discriminate Hv.
    destruct (setter_str_returns _ _ Hret) as (fs1 & fs2 & Hmk & Hop & Hs1 & Hh1 & Hfs1).
    destruct (os.makedirs_ok _ _ _ Hmk) as (_ & Hdir1).
    destruct (os.open_append_ok _ _ _ Hop) as (Hgrow & _ & Hop2).
    pose proof (os.makedirs_existing _ _ (os.isdir_grows _ _ _ Hgrow Hdir1)) as Hmk2.
    remember (snd (_setter (VStr path) w)) as w1 eqn:Hw1.
    assert (Hret2 : fst (_setter (VStr path) w1) = Ok tt).
    { rewrite setter_str, Hf2. unfold set_up. by rewrite Hfs1, Hmk2, Hop2. }
    split; [exact Hret2|].
    destruct (setter_str_returns _ _ Hret2) as (fs1' & fs2' & Hmk' & Hop' & Hs2 & Hh2 & Hfs2).
    rewrite Hfs1, Hmk2 in Hmk'. injection Hmk' as <-.
    rewrite Hop2 in Hop'. injection Hop' as <-.
    rewrite (observable_set _ _ _ _ Hc2 Hs2 Hh2).
    rewrite (observable_set _ _ _ _ Hc1 Hs1 Hh1).
    simpl. by rewrite Hfs1, Hfs2.
  - revert Hf2. rewrite (setter_not_str v w), Hf1 by assumption. simpl. intros Hf2.
    rewrite setter_not_str, Hf2 by assumption. split; [reflexivity|]. simpl.
    unfold observable, open_streams, torn_down, teardown_events. simpl.
    by rewrite app_nil_r.
Qed.

(** A path without a separator has the empty [dirname]. *)
Lemma dirname_bare name :
  posixpath.upto_last_sep name = EmptyString -> posixpath.dirname name = EmptyString.
Proof. intros H. unfold posixpath.dirname, posixpath.split. by rewrite H. Qed.

(** With a bare file name the call stops at [os.makedirs("")], after the
    teardown and before anything is opened. *)
Lemma setter_bare_raises name w :
  posixpath.upto_last_sep name = EmptyString ->
  closing_fails w = false ->
  _setter (VStr name) w =
    (Raise FileNotFoundError,
     mkWorld None None (LOGGER (torn_down w)) (fs w) (next_id w)
             (trace (torn_down w) ++ [opening name])).
Proof.
  intros H Hf. rewrite setter_str, Hf. unfold set_up.
  by rewrite (dirname_bare _ H), os.makedirs_empty.
Qed.

(** C9, where it fails: for the log path ["run.log"], in any world, the
    setter raises, the files are untouched and no handler is installed,
    although the file could have been opened.  Unless the stream held
    before fails to close, what it raises is [FileNotFoundError] out of
    [os.makedirs("")], after the teardown and the message and before
    anything is opened, and both globals are [None]. *)
Theorem setter_bare_file_name_raises w :
  returned (fst (_setter (VStr "run.log") w)) = false /\
  fs (snd (_setter (VStr "run.log") w)) = fs w /\
  _LOG_HANDLER (snd (_setter (VStr "run.log") w)) = None /\
  (closing_fails w = false ->
   fst (_setter (VStr "run.log") w) = Raise FileNotFoundError /\
   _FILE_STREAM (snd (_setter (VStr "run.log") w)) = None /\
   trace (snd (_setter (VStr "run.log") w)) =
     trace w ++ teardown_events w ++ [opening "run.log"]) /\
  (closing_fails w = true ->
   fst (_setter (VStr "run.log") w) = Raise OSError).
Proof.
  destruct (closing_fails w) eqn:Hf.
  - rewrite setter_str, Hf. simpl. repeat split; auto; discriminate.
  - rewrite (setter_bare_raises "run.log" w) by (reflexivity || exact Hf). simpl.
    repeat split; auto; try discriminate. by rewrite <- app_assoc.
Qed.

(** The file itself could be opened: in the example world, [open("run.log",
    "a")] succeeds. *)
Example open_bare_file_name_succeeds :
  exists files, os.open_append "run.log" example_files = inr files.
Proof. eexists. vm_compute. reflexivity. Qed.

(** A call with a string that returns has made sure the parent directory
    exists, holds a stream on that path opened with mode ["a"], and has kept
    every node of the file system, the content of an existing log file at
    that path included. *)
Theorem setter_opens_for_append w path :
  fst (_setter (VStr path) w) = Ok tt ->
  os.isdir (fs (snd (_setter (VStr path) w))) (posixpath.dirname path) = true /\
  _FILE_STREAM (snd (_setter (VStr path) w)) = Some (mkStream (next_id w) path "a") /\
  os.grows (fs w) (fs (snd (_setter (VStr path) w))) /\
  is_Some (os.read_file (fs (snd (_setter (VStr path) w))) path) /\
  (forall d, os.read_file (fs w) path = Some d ->
             os.read_file (fs (snd (_setter (VStr path) w))) path = Some d).
Proof.
  intros Hret.
  destruct (setter_str_returns _ _ Hret) as (fs1 & fs2 & Hmk & Hop & Hs & _ & Hfs).
  destruct (os.makedirs_ok _ _ _ Hmk) as (Hg1 & Hdir).
  destruct (os.open_append_ok _ _ _ Hop) as (Hg2 & Hread & _).
  rewrite Hfs, Hs. repeat split.
  - by eapply os.isdir_grows.
  - by destruct Hg1, Hg2; congruence.
  - intros k n Hk. by apply Hg2, Hg1.
  - rewrite Hread. eauto.
  - intros d Hd. rewrite Hread, (os.read_file_grows _ _ _ _ Hg1 Hd). reflexivity.
Qed.


(** *** The logger's other handlers, the debug message, and failure *)

(** The setter leaves the logger's other handlers alone: after any call
    the logger has the handlers it had when the module was imported, in
    their order, followed by the handler of the log file if there is one,
    which is none of the others. *)
Theorem setter_keeps_other_handlers others w v :
  reachable others w ->
  LOGGER (snd (_setter v w)) =
    others ++ match _LOG_HANDLER (snd (_setter v w)) with
              | Some h => [h]
              | None => []
              end /\
  (forall h, _LOG_HANDLER (snd (_setter v w)) = Some h ->
             Forall (fun h' => handler_id h' <> handler_id h) others).
Proof.
  intros Hr.
  pose proof (reachable_consistent _ _ (reach_setter _ _ v Hr)) as (_ & _ & Hc).
  destruct (_LOG_HANDLER (snd (_setter v w))) as [h|],
           (_FILE_STREAM (snd (_setter v w))) as [s|]; try contradiction.
  - destruct Hc as (_ & _ & Hfresh & HL & _). split; [exact HL|].
    intros h' Hh'. inversion Hh'; subst. exact Hfresh.
  - destruct Hc as (HL & _). rewrite app_nil_r. split; [exact HL|].
    intros h Hh. discriminate Hh.
  - destruct Hc as (HL & _). rewrite app_nil_r. split; [exact HL|].
    intros h Hh. discriminate Hh.
Qed.

(** With a string, and unless closing the stream held before raises, the
    message that the stream is being opened is logged once, after what the
    call undoes and before anything is opened: the old handler is off the
    logger by then and the new one is not on it yet.  When the call
    returns, what follows is the opening of a stream on the path in mode
    [a] and the installation of a handler on that stream with plain
    formatting; when it raises, nothing follows.  When closing raises the
    call ends there, and without a string nothing is logged at all. *)
Theorem setter_logs_opening_between v w :
  match v with
  | VStr path =>
      if closing_fails w then
        fst (_setter v w) = Raise OSError /\
        trace (snd (_setter v w)) = trace w ++ teardown_events w
      else
        exists rest,
          trace (snd (_setter v w))
            = trace w ++ teardown_events w
                ++ EvLog DEBUG "opening log file stream: %s" [VStr path] :: rest /\
          match fst (_setter v w) with
          | Ok _ =>
              exists s h,
                rest = [EvOpen s; EvAddHandler h] /\
                stream_name s = path /\ stream_mode s = "a" /\
                handler_stream h = s /\
                handler_formatter h = Some (mkFormatter false) /\
                _FILE_STREAM (snd (_setter v w)) = Some s /\
                _LOG_HANDLER (snd (_setter v w)) = Some h
          | Raise _ => rest = []
          end
  | _ => trace (snd (_setter v w)) = trace w ++ teardown_events w
  end.
Proof.
  destruct v as [| | | |path|];
    try (rewrite setter_not_str by reflexivity; destruct (closing_fails w); reflexivity).
  rewrite setter_str. destruct (closing_fails w); [split; reflexivity|].
  unfold set_up.
  destruct (os.makedirs _ _) as [e|fs1];
    [|destruct (os.open_append _ _) as [e|fs2]]; simpl.
  - exists []. rewrite <- app_assoc. auto.
  - exists []. rewrite <- app_assoc. auto.
  - eexists. rewrite <- app_assoc. split; [reflexivity|].
    exists (new_stream w path), (new_handler w path). repeat split.
Qed.

(** A call that raises has switched logging to a file off: the handler the
    module held is off the logger and forgotten, the logger is back to its
    other handlers, and no stream of the item is open.  When it was
    [close()] that raised, the error is [OSError] and [_FILE_STREAM] still
    names the stream, which is closed; otherwise the argument was a string
    and [_FILE_STREAM] is [None]. *)
Theorem setter_failure_leaves_no_log_file others w v e :
  reachable others w ->
  fst (_setter v w) = Raise e ->
  _LOG_HANDLER (snd (_setter v w)) = None /\
  LOGGER (snd (_setter v w)) = others /\
  open_streams (snd (_setter v w)) = [] /\
  (closing_fails w = true ->
   e = OSError /\ _FILE_STREAM (snd (_setter v w)) = _FILE_STREAM w) /\
  (closing_fails w = false ->
   isinstance_str v = true /\ _FILE_STREAM (snd (_setter v w)) = None).
Proof.
  intros Hr He.
  pose proof (reachable_consistent _ _ (reach_setter _ _ v Hr)) as (_ & _ & Hc).
  assert (Hcases :
    _LOG_HANDLER (snd (_setter v w)) = None /\
    (closing_fails w = true ->
     e = OSError /\ _FILE_STREAM (snd (_setter v w)) = _FILE_STREAM w) /\
    (closing_fails w = false ->
     isinstance_str v = true /\ _FILE_STREAM (snd (_setter v w)) = None)).
  { revert He. destruct (isinstance_str v) eqn:Hv.
    - destruct v; try discriminate Hv. rewrite setter_str.
      destruct (closing_fails w); simpl.
      + intros [= <-]. repeat split; auto; discriminate.
      + unfold set_up.
        destruct (os.makedirs _ _) as [e1|fs1];
          [|destruct (os.open_append _ _) as [e2|fs2]]; simpl;
          intros He; try discriminate He; repeat split; auto; discriminate.
    - rewrite setter_not_str by assumption.
      destruct (closing_fails w); simpl.
      + intros [= <-]. repeat split; auto; discriminate.
      + discriminate. }
  destruct Hcases as (Hh & Hfail & Hok).
  rewrite Hh in Hc. unfold open_streams.
  destruct (_FILE_STREAM (snd (_setter v w))); destruct Hc as [HL Hlive]; auto.
Qed.

End Setter.

(** *** The example world, with a device that works and one that does not *)

(** Every flush succeeds. *)
Definition sound (s : Stream) (tr : list Event) : bool := false.

(** Every flush fails. *)
Definition failing (s : Stream) (tr : list Event) : bool := true.

Lemma setter_releases_before_acquiring_witness :
  exists up,
    trace (snd (_setter sound (VStr "out/b.log")
                  (snd (_setter sound (VStr "out/a.log") example_world)))) =
      trace (snd (_setter sound (VStr "out/a.log") example_world)) ++
      teardown_events (snd (_setter sound (VStr "out/a.log") example_world)) ++ up /\
    Forall (fun e => is_setup e = false)
      (teardown_events (snd (_setter sound (VStr "out/a.log") example_world))) /\
    Forall (fun e => is_teardown e = false) up /\
    (forall h, _LOG_HANDLER (snd (_setter sound (VStr "out/a.log") example_world)) = Some h ->
       In (EvRemoveHandler h)
          (teardown_events (snd (_setter sound (VStr "out/a.log") example_world))) /\
       ~ In h (LOGGER (snd (_setter sound (VStr "out/b.log")
                               (snd (_setter sound (VStr "out/a.log") example_world)))))) /\
    (forall s, _FILE_STREAM (snd (_setter sound (VStr "out/a.log") example_world)) = Some s ->
       In (EvClose s)
          (teardown_events (snd (_setter sound (VStr "out/a.log") example_world)))) /\
    at_most_one_open
      (trace (snd (_setter sound (VStr "out/b.log")
                     (snd (_setter sound (VStr "out/a.log") example_world))))).
Proof.
  apply (setter_releases_before_acquiring sound [console]
           (snd (_setter sound (VStr "out/a.log") example_world)) (VStr "out/b.log")).
  apply reach_setter, reach_initial. repeat constructor.
Defined.

Lemma setter_unset_releases_everything_witness :
  fst (_setter sound VNone (snd (_setter sound (VStr "out/a.log") example_world))) = Ok tt /\
  _LOG_HANDLER (snd (_setter sound VNone
                       (snd (_setter sound (VStr "out/a.log") example_world)))) = None /\
  _FILE_STREAM (snd (_setter sound VNone
                       (snd (_setter sound (VStr "out/a.log") example_world)))) = None /\
  LOGGER (snd (_setter sound VNone
                 (snd (_setter sound (VStr "out/a.log") example_world)))) = [console] /\
  open_streams (snd (_setter sound VNone
                       (snd (_setter sound (VStr "out/a.log") example_world)))) = [] /\
  fs (snd (_setter sound VNone (snd (_setter sound (VStr "out/a.log") example_world)))) =
    fs (snd (_setter sound (VStr "out/a.log") example_world)) /\
  trace (snd (_setter sound VNone (snd (_setter sound (VStr "out/a.log") example_world)))) =
    trace (snd (_setter sound (VStr "out/a.log") example_world)) ++
    teardown_events (snd (_setter sound (VStr "out/a.log") example_world)) /\
  Forall (fun e => is_setup e = false)
    (teardown_events (snd (_setter sound (VStr "out/a.log") example_world))).
Proof.
  apply (setter_unset_releases_everything sound [console]
           (snd (_setter sound (VStr "out/a.log") example_world)) VNone).
  - apply reach_setter, reach_initial. repeat constructor.
  - reflexivity.
  - reflexivity.
Defined.

(** Against C5: a log file is opened; then the setter is called with
    [None] while the device fails.  The call raises [OSError] out of
    [close()], and [_FILE_STREAM] still names the stream. *)
Lemma setter_unset_raises_when_close_fails :
  fst (_setter failing (VStr "out/a.log") example_world) = Ok tt /\
  isinstance_str VNone = false /\
  fst (_setter failing VNone (snd (_setter failing (VStr "out/a.log") example_world)))
    = Raise OSError /\
  _FILE_STREAM (snd (_setter failing VNone
                       (snd (_setter failing (VStr "out/a.log") example_world))))
    = Some (mkStream 3 "out/a.log" "a").
Proof. repeat split; vm_compute; reflexivity. Qed.

Lemma setter_twice_same_value_witness :
  fst (_setter sound (VStr "out/a.log")
         (snd (_setter sound (VStr "out/a.log") example_world))) = Ok tt /\
  observable (snd (_setter sound (VStr "out/a.log")
                     (snd (_setter sound (VStr "out/a.log") example_world)))) =
    observable (snd (_setter sound (VStr "out/a.log") example_world)).
Proof.
  apply (setter_twice_same_value sound [console] example_world (VStr "out/a.log")).
  - apply reach_initial. repeat constructor.
  - vm_compute. reflexivity.
  - reflexivity.
Defined.

(** Against C6: the log path lies under a regular file.  The first call
    raises out of [os.makedirs], and so does the second call with the same
    value.  And where the first call returned, the second one closes the
    stream the first one opened: while the device fails, it raises
    [OSError] out of [close()]. *)
Lemma setter_twice_raises_twice :
  (fst (_setter sound (VStr "old.log/x.log") example_world) = Raise FileExistsError /\
   fst (_setter sound (VStr "old.log/x.log")
          (snd (_setter sound (VStr "old.log/x.log") example_world)))
     = Raise FileExistsError) /\
  (fst (_setter failing (VStr "out/a.log") example_world) = Ok tt /\
   fst (_setter failing (VStr "out/a.log")
          (snd (_setter failing (VStr "out/a.log") example_world)))
     = Raise OSError).
Proof. repeat split; vm_compute; reflexivity. Qed.

(** Against C8: the most recent argument is a string, and both globals are
    [None], because the call raised.  And while the device fails, a call
    that finds a stream to close leaves [_LOG_HANDLER] at [None] and
    [_FILE_STREAM] set. *)
Lemma setter_string_call_leaves_globals_unset :
  (isinstance_str (VStr "old.log/x.log") = true /\
   fst (_setter sound (VStr "old.log/x.log") example_world) = Raise FileExistsError /\
   _LOG_HANDLER (snd (_setter sound (VStr "old.log/x.log") example_world)) = None /\
   _FILE_STREAM (snd (_setter sound (VStr "old.log/x.log") example_world)) = None) /\
  (_LOG_HANDLER (snd (_setter failing VNone
                        (snd (_setter failing (VStr "out/a.log") example_world))))
     = None /\
   _FILE_STREAM (snd (_setter failing VNone
                        (snd (_setter failing (VStr "out/a.log") example_world))))
     = Some (mkStream 3 "out/a.log" "a")).
Proof. repeat split; vm_compute; reflexivity. Qed.

Lemma setter_opens_for_append_witness :
  os.isdir (fs (snd (_setter sound (VStr "./old.log") example_world)))
           (posixpath.dirname "./old.log") = true /\
  _FILE_STREAM (snd (_setter sound (VStr "./old.log") example_world)) =
    Some (mkStream (next_id example_world) "./old.log" "a") /\
  os.grows (fs example_world) (fs (snd (_setter sound (VStr "./old.log") example_world))) /\
  is_Some (os.read_file (fs (snd (_setter sound (VStr "./old.log") example_world)))
                        "./old.log") /\
  (forall d, os.read_file (fs example_world) "./old.log" = Some d ->
             os.read_file (fs (snd (_setter sound (VStr "./old.log") example_world)))
                          "./old.log" = Some d).
Proof.
  apply (setter_opens_for_append sound example_world "./old.log").
  vm_compute. reflexivity.
Defined.

Lemma setter_keeps_other_handlers_witness :
  LOGGER (snd (_setter sound (VStr "out/a.log") example_world)) =
    [console] ++ match _LOG_HANDLER (snd (_setter sound (VStr "out/a.log") example_world)) with
                 | Some h => [h]
                 | None => []
                 end /\
  (forall h, _LOG_HANDLER (snd (_setter sound (VStr "out/a.log") example_world)) = Some h ->
             Forall (fun h' => handler_id h' <> handler_id h) [console]).
Proof.
  apply (setter_keeps_other_handlers sound [console] example_world (VStr "out/a.log")).
  apply reach_initial. repeat constructor.
Defined.

Lemma setter_failure_leaves_no_log_file_witness :
  _LOG_HANDLER (snd (_setter failing VNone
                       (snd (_setter failing (VStr "out/a.log") example_world)))) = None /\
  LOGGER (snd (_setter failing VNone
                 (snd (_setter failing (VStr "out/a.log") example_world)))) = [console] /\
  open_streams (snd (_setter failing VNone
                       (snd (_setter failing (VStr "out/a.log") example_world)))) = [] /\
  (closing_fails failing (snd (_setter failing (VStr "out/a.log") example_world)) = true ->
   OSError = OSError /\
   _FILE_STREAM (snd (_setter failing VNone
                        (snd (_setter failing (VStr "out/a.log") example_world))))
     = _FILE_STREAM (snd (_setter failing (VStr "out/a.log") example_world))) /\
  (closing_fails failing (snd (_setter failing (VStr "out/a.log") example_world)) = false ->
   isinstance_str VNone = true /\
   _FILE_STREAM (snd (_setter failing VNone
                        (snd (_setter failing (VStr "out/a.log") example_world)))) = None).
Proof.
  apply (setter_failure_leaves_no_log_file failing [console]
           (snd (_setter failing (VStr "out/a.log") example_world)) VNone OSError).
  - apply reach_setter. apply reach_initial. repeat constructor.
  - vm_compute. reflexivity.
Defined.

End log_file.

(** ** The session core ([hssl/session], [hssl/utility/session.py])

    These modules are not among the sources at hand; what follows is
    modelled from the specification's sections 3 and 4.  A [Session] is a
    heap object, known by its identity, whose attributes are its overrides;
    the stack of active sessions holds identities. *)
Module session.

Section Core.

(** Everything outside the session core that an item's setter acts on. *)
Variable X : Type.

(** Modelled from the spec: [SessionItem] (class missing from the sources),
    "declares one configurable slot": a default and an optional
    side-effecting setter. *)
Record SessionItem := mkItem {
  default : Value;
  setter : option (Value -> M X unit);
}.

(** Modelled from the spec: the item registry (missing from the sources),
    a mapping from item name to item that preserves insertion order. *)
Variable registry : list (string * SessionItem).

(** A record of the stack's transitions, kept to state that activations
    and deactivations nest. *)
Inductive Transition :=
| Activated (sid : nat)
| Deactivated (sid : nat).

Record World := mkWorld {
  heap : gmap nat (gmap string Value);   (* the Session objects *)
  next_oid : nat;                        (* the next fresh identity *)
  stack : list nat;                      (* active sessions, top first *)
  journal : list Transition;             (* oldest first *)
  ext : X;
}.

Definition with_ext (x : X) (w : World) : World :=
  mkWorld (heap w) (next_oid w) (stack w) (journal w) x.

(** Runs a computation on the outside world inside the whole world. *)
Definition lift {A} (m : M X A) : M World A :=
  fun w => let (r, x) := m (ext w) in (r, with_ext x w).

(** The overrides of the session [sid]. *)
Definition overrides (w : World) (sid : nat) : gmap string Value :=
  from_option id ∅ (heap w !! sid).

(** Modelled from the spec: [lookup(name)] of the registry (missing),
    "fails with UnknownItemError if absent". *)
Fixpoint lookup_item (reg : list (string * SessionItem)) (name : string)
  : Exn + SessionItem :=
  match reg with
  | [] => inl (UnknownItemError name)
  | (n, it) :: rest => if bool_decide (n = name) then inr it else lookup_item rest name
  end.

Definition registered (reg : list (string * SessionItem)) (name : string) : bool :=
  match lookup_item reg name with
  | inr _ => true
  | inl _ => false
  end.

(** The first override of [name] found from the top of the stack down. *)
Fixpoint scan (h : gmap nat (gmap string Value)) (stk : list nat) (name : string)
  : option Value :=
  match stk with
  | [] => None
  | sid :: below =>
      match from_option id ∅ (h !! sid) !! name with
      | Some v => Some v
      | None => scan h below name
      end
  end.

(** Modelled from the spec: [effective(name)] (missing from the sources),
    "scans from top of stack downward, returns the first override found,
    else the registered default". *)
Definition effective (w : World) (name : string) : Exn + Value :=
  match scan (heap w) (stack w) name with
  | Some v => inr v
  | None =>
      match lookup_item registry name with
      | inr it => inr (default it)
      | inl e => inl e
      end
  end.

(** The value of a registered item under a given stack. *)
Definition value_under (h : gmap nat (gmap string Value)) (stk : list nat)
    (name : string) (it : SessionItem) : Value :=
  match scan h stk name with
  | Some v => v
  | None => default it
  end.

(** The items among [items] whose value differs between two stacks, each
    with its new value, in the order of [items]. *)
Definition changed (h : gmap nat (gmap string Value)) (old new : list nat)
    (items : list (string * SessionItem)) : list (SessionItem * Value) :=
  omap (fun '(name, it) =>
          let v := value_under h new name it in
          if decide (value_under h old name it = v) then None else Some (it, v))
       items.

(** Calls the setters one after the other; the first that raises ends the
    pass. *)
Fixpoint fire (todo : list (SessionItem * Value)) : M X unit :=
  match todo with
  | [] => ret tt
  | (it, v) :: rest =>
      match setter it with
      | Some f => bind (f v) (fun _ => fire rest)
      | None => fire rest
      end
  end.

(** Modelled from the spec: [Session.__enter__] (missing from the sources).
    "For every item whose effective value changes as a result of pushing
    this session ... invoke that item's setter with the new effective value,
    in registry registration order"; a setter that fails ends the step
    "before mutating [the] stack". *)
Definition activate (sid : nat) : M World unit :=
  fun w =>
    let todo := changed (heap w) (stack w) (sid :: stack w) registry in
    match fire todo (ext w) with
    | (Ok _, x) =>
        (Ok tt, mkWorld (heap w) (next_oid w) (sid :: stack w)
                        (journal w ++ [Activated sid]) x)
    | (Raise e, x) => (Raise e, with_ext x w)
    end.

(** Modelled from the spec: [Session.__exit__] (missing from the sources).
    "A session may only be deactivated when it is the current top of the
    stack"; the setters are invoked "with the new (post-pop) effective
    value" for "every item this session overrode" whose value changes.  A
    setter that fails ends the step like on the way in: "complete the diff
    pass before mutating the stack and propagate, leaving the stack
    unchanged".  So the session is popped once the setters have returned. *)
Definition deactivate (sid : nat) : M World unit :=
  fun w =>
    match stack w with
    | top :: below =>
        if bool_decide (top = sid) then
          let mine := filter (fun '(name, _) => is_Some (overrides w sid !! name))
                             registry in
          let todo := changed (heap w) (stack w) below mine in
          match fire todo (ext w) with
          | (Ok _, x) =>
              (Ok tt, mkWorld (heap w) (next_oid w) below
                              (journal w ++ [Deactivated sid]) x)
          | (Raise e, x) => (Raise e, with_ext x w)
          end
        else (Raise OutOfOrderDeactivation, w)
    | [] => (Raise OutOfOrderDeactivation, w)
    end.

(** Modelled from the spec: the [Session] constructor (class missing from
    the sources), "constructed with zero or more named overrides (unknown
    names are an error)", failing "fast rather than at activation time". *)
Definition Session (kwargs : list (string * Value)) : M World nat :=
  fun w =>
    match List.find (fun kv => negb (registered registry (fst kv))) kwargs with
    | Some (name, _) => (Raise (UnknownItemError name), w)
    | None =>
        (Ok (next_oid w),
         mkWorld (<[next_oid w := list_to_map kwargs]> (heap w)) (S (next_oid w))
                 (stack w) (journal w) (ext w))
    end.

(** [session.name = value] on an existing object. *)
Definition setattr (sid : nat) (name : string) (v : Value) : M World unit :=
  modify (fun w =>
    mkWorld (<[sid := <[name := v]> (overrides w sid)]> (heap w)) (next_oid w)
            (stack w) (journal w) (ext w)).

End Core.

Arguments mkItem {X} default setter.
Arguments default {X} s.
Arguments setter {X} s.
Arguments mkWorld {X} heap next_oid stack journal ext.
Arguments heap {X} w.
Arguments next_oid {X} w.
Arguments stack {X} w.
Arguments journal {X} w.
Arguments ext {X} w.
Arguments with_ext {X} x w.
Arguments lift {X A} m w.
Arguments overrides {X} w sid.
Arguments lookup_item {X} reg name.
Arguments registered {X} reg name.
Arguments effective {X} registry w name.
Arguments value_under {X} h stk name it.
Arguments changed {X} h old new items.
Arguments fire {X} todo.
Arguments activate {X} registry sid.
Arguments deactivate {X} registry sid.
Arguments Session {X} registry kwargs.
Arguments setattr {X} sid name v.

Section Codec.

Variable X : Type.
Variable registry : list (string * SessionItem X).

(** Modelled from the spec: the value codec of the persistence file format
    (missing from the sources).  [encode] answers [None] for a value that
    is "not encodable (e.g., open resource handles, live callables)". *)
Variable Encoded : Type.
Variable encode : Value -> option Encoded.
Variable decode : Encoded -> Value.

(** A "key-value document ... mapping item names to encoded values". *)
Definition Document : Type := list (string * Encoded).

Definition encode_item (kv : string * Value) : option (string * Encoded) :=
  match encode (snd kv) with
  | Some e => Some (fst kv, e)
  | None => None
  end.

Definition skipped_item (kv : string * Value) : option string :=
  match encode (snd kv) with
  | Some _ => None
  | None => Some (fst kv)
  end.

(** Modelled from the spec: the first half of [save] (missing from the
    sources): "for each override in the session, attempts to encode the
    value ...; items whose values are not encodable ... are skipped with a
    warning-level diagnostic".  The second component lists the items
    warned about. *)
Definition to_document (w : World X) (sid : nat) : Document * list string :=
  let items := map_to_list (overrides w sid) in
  (omap encode_item items, omap skipped_item items).

Definition decode_item (ke : string * Encoded) : string * Value :=
  (fst ke, decode (snd ke)).

(** Modelled from the spec: the second half of [load] (missing from the
    sources), on the document once it is parsed: "validates every key
    against the Item Registry ..., and constructs overrides; fails with
    MalformedSessionError if the document is not structurally valid, and
    with UnknownItemError if it references an item no longer registered".
    A document that gives a key twice is not structurally valid. *)
Definition from_document (doc : Document) : M (World X) nat :=
  if bool_decide (NoDup (fst <$> doc)) then Session registry (decode_item <$> doc)
  else raise MalformedSessionError.

End Codec.

Arguments Document Encoded : clear implicits.
Arguments to_document {X Encoded} encode w sid.
Arguments from_document {X} registry {Encoded} decode doc.
Arguments encode_item {Encoded} encode kv.
Arguments skipped_item {Encoded} encode kv.
Arguments decode_item {Encoded} decode ke.

(** Modelled from the spec: the encodable values, those of "a structured,
    human-editable text document (key-value document format)": truth
    values, integers and strings.  There is no null in it, and callables
    have no encoding. *)
Inductive Scalar :=
| SBool (b : bool)
| SInt (z : Z)
| SStr (s : string).

Definition scalar_encode (v : Value) : option Scalar :=
  match v with
  | VBool b => Some (SBool b)
  | VInt z => Some (SInt z)
  | VStr s => Some (SStr s)
  | _ => None
  end.

Definition scalar_decode (e : Scalar) : Value :=
  match e with
  | SBool b => VBool b
  | SInt z => VInt z
  | SStr s => VStr s
  end.


(** *** The text of a saved session *)

(** Modelled from the spec: the persistence file format (missing from the
    sources), "a structured, human-editable text document (key-value
    document format) mapping item names to encoded values".  One line for
    each item: the name in double quotes, [ = ], and the value, which is
    [true], [false], an integer in decimal or a string in double quotes.
    Inside the quotes a backslash stands before a double quote and before a
    backslash, and a line feed is written backslash-n. *)
Definition dquote : ascii := "034"%char.
Definition backslash : ascii := "\"%char.
Definition newline : ascii := "010"%char.

Fixpoint escape (s : string) : string :=
  match s with
  | EmptyString => EmptyString
  | String c rest =>
      if Ascii.eqb c dquote || Ascii.eqb c backslash
      then String backslash (String c (escape rest))
      else if Ascii.eqb c newline then String backslash (String "n" (escape rest))
      else String c (escape rest)
  end.

Definition quote (s : string) : string :=
  String dquote (escape s +:+ String dquote EmptyString).

Definition render_scalar (e : Scalar) : string :=
  match e with
  | SBool true => "true"
  | SBool false => "false"
  | SInt z => DecimalString.NilZero.string_of_int (Z.to_int z)
  | SStr s => quote s
  end.

Definition render_entry (ke : string * Scalar) : string :=
  quote (fst ke) +:+ " = " +:+ render_scalar (snd ke).

(** Modelled from the spec: writing the "key-value document", one line for
    each entry. *)
Fixpoint render (doc : Document Scalar) : string :=
  match doc with
  | [] => EmptyString
  | ke :: rest => render_entry ke +:+ String newline (render rest)
  end.

(** What an escape stands for. *)
Definition escaped (c : ascii) : option ascii :=
  if Ascii.eqb c dquote || Ascii.eqb c backslash then Some c
  else if Ascii.eqb c "n" then Some newline
  else None.

(** Reads the inside of a quoted string up to the closing quote; answers
    the string and what follows the quote. *)
Fixpoint unquote (s : string) : option (string * string) :=
  match s with
  | EmptyString => None
  | String c rest =>
      if Ascii.eqb c dquote then Some (EmptyString, rest)
      else if Ascii.eqb c backslash then
        match rest with
        | String c' rest' =>
            match escaped c', unquote rest' with
            | Some a, Some (inside, tl) => Some (String a inside, tl)
            | _, _ => None
            end
        | EmptyString => None
        end
      else
        match unquote rest with
        | Some (inside, tl) => Some (String c inside, tl)
        | None => None
        end
  end.

Definition read_quoted (s : string) : option (string * string) :=
  match s with
  | String c rest => if Ascii.eqb c dquote then unquote rest else None
  | EmptyString => None
  end.

(** [s] without the prefix [prefix]. *)
Fixpoint expect (prefix s : string) : option string :=
  match prefix with
  | EmptyString => Some s
  | String c prefix' =>
      match s with
      | String c' s' => if Ascii.eqb c c' then expect prefix' s' else None
      | EmptyString => None
      end
  end.

Definition parse_scalar (s : string) : option Scalar :=
  match s with
  | String c _ =>
      if Ascii.eqb c dquote then
        match read_quoted s with
        | Some (v, EmptyString) => Some (SStr v)
        | _ => None
        end
      else if String.eqb s "true" then Some (SBool true)
      else if String.eqb s "false" then Some (SBool false)
      else
        match DecimalString.NilZero.int_of_string s with
        | Some i => Some (SInt (Z.of_int i))
        | None => None
        end
  | EmptyString => None
  end.

Definition parse_entry (line : string) : option (string * Scalar) :=
  match read_quoted line with
  | Some (k, tl) =>
      match expect " = " tl with
      | Some v =>
          match parse_scalar v with
          | Some e => Some (k, e)
          | None => None
          end
      | None => None
      end
  | None => None
  end.

(** The lines of a text; the last one may lack its line feed. *)
Fixpoint lines (s : string) : list string :=
  match s with
  | EmptyString => []
  | String c rest =>
      if Ascii.eqb c newline then EmptyString :: lines rest
      else
        match lines rest with
        | [] => [String c EmptyString]
        | l :: ls => String c l :: ls
        end
  end.

Fixpoint parse_entries (ls : list string) : option (Document Scalar) :=
  match ls with
  | [] => Some []
  | l :: rest =>
      match parse_entry l, parse_entries rest with
      | Some ke, Some doc => Some (ke :: doc)
      | _, _ => None
      end
  end.

(** Modelled from the spec: "parses the document"; [None] when the text
    "is not structurally parseable". *)
Definition parse (text : string) : option (Document Scalar) :=
  parse_entries (lines text).

Section Persistence.

Variable X : Type.
Variable registry : list (string * SessionItem X).

(** Modelled from the spec: [save(session) -> document] (missing from the
    sources): "for each override in the session, attempts to encode the
    value into a structured text document", skipping what is not encodable
    "with a warning-level diagnostic".  The second component lists the
    items warned about. *)
Definition save (w : World X) (sid : nat) : string * list string :=
  (render (fst (to_document scalar_encode w sid)),
   snd (to_document scalar_encode w sid)).

(** Modelled from the spec: [load(document) -> Session] (missing from the
    sources): "parses the document, validates every key against the Item
    Registry ..., and constructs overrides; fails with MalformedSessionError
    if the document is not structurally valid". *)
Definition load (text : string) : M (World X) nat :=
  match parse text with
  | Some doc => from_document registry scalar_decode doc
  | None => raise MalformedSessionError
  end.

End Persistence.

Arguments save {X} w sid.
Arguments load {X} registry text.

(** *** Facts about activation and deactivation *)

Section CoreFacts.

Context {X : Type} (registry : list (string * SessionItem X)).

Lemma activate_heap sid (w : World X) :
  heap (snd (activate registry sid w)) = heap w /\
  next_oid (snd (activate registry sid w)) = next_oid w.
Proof.
  unfold activate.
  destruct (fire _ (ext w)) as [[[]|e] x]; simpl; auto.
Qed.

Lemma activate_ok sid (w : World X) :
  returned (fst (activate registry sid w)) = true ->
  stack (snd (activate registry sid w)) = sid :: stack w /\
  journal (snd (activate registry sid w)) = journal w ++ [Activated sid].
Proof.
  unfold activate.
  destruct (fire _ (ext w)) as [[[]|e] x]; simpl; auto; discriminate.
Qed.

Lemma activate_raise sid (w : World X) :
  returned (fst (activate registry sid w)) = false ->
  stack (snd (activate registry sid w)) = stack w /\
  journal (snd (activate registry sid w)) = journal w.
Proof.
  unfold activate.
  destruct (fire _ (ext w)) as [[[]|e] x]; simpl; auto; discriminate.
Qed.

(** A deactivation either pops the top of the stack, when it returns, or
    leaves the stack as it is, when it raises; the objects stay. *)
Lemma deactivate_heap sid (w : World X) :
  heap (snd (deactivate registry sid w)) = heap w /\
  next_oid (snd (deactivate registry sid w)) = next_oid w.
Proof.
  unfold deactivate. destruct (stack w) as [|top below]; [auto|].
  case_bool_decide; [|auto].
  destruct (fire _ (ext w)) as [[[]|e] x]; simpl; auto.
Qed.

Lemma deactivate_ok sid (w : World X) :
  returned (fst (deactivate registry sid w)) = true ->
  exists below,
    stack w = sid :: below /\
    stack (snd (deactivate registry sid w)) = below /\
    journal (snd (deactivate registry sid w)) = journal w ++ [Deactivated sid].
Proof.
  unfold deactivate. destruct (stack w) as [|top below]; [discriminate|].
  case_bool_decide as Htop; [|discriminate]. subst top.
  destruct (fire _ (ext w)) as [[[]|e] x]; simpl; [eauto|discriminate].
Qed.

Lemma deactivate_raise sid (w : World X) :
  returned (fst (deactivate registry sid w)) = false ->
  stack (snd (deactivate registry sid w)) = stack w /\
  journal (snd (deactivate registry sid w)) = journal w.
Proof.
  unfold deactivate. destruct (stack w) as [|top below] eqn:Hs; [simpl; auto|].
  case_bool_decide; [|simpl; auto].
  destruct (fire _ (ext w)) as [[[]|e] x]; simpl; auto; discriminate.
Qed.

(** Out of order, nothing happens but the error. *)
Lemma deactivate_out_of_order sid (w : World X) :
  head (stack w) <> Some sid ->
  deactivate registry sid w = (Raise OutOfOrderDeactivation, w).
Proof.
  intros Hs. unfold deactivate.
  destruct (stack w) as [|top below]; [reflexivity|].
  case_bool_decide; [|reflexivity].
  subst. simpl in Hs. congruence.
Qed.

Lemma scan_top h sid below name v :
  from_option id ∅ (h !! sid) !! name = Some v ->
  scan h (sid :: below) name = Some v.
Proof. intros H. simpl. rewrite H. reflexivity. Qed.

Lemma scan_below h sid below name :
  from_option id ∅ (h !! sid) !! name = None ->
  scan h (sid :: below) name = scan h below name.
Proof. intros H. simpl. rewrite H. reflexivity. Qed.

(** What the session on top overrides is the effective value. *)
Lemma effective_top (w : World X) sid below name v :
  stack w = sid :: below ->
  overrides w sid !! name = Some v ->
  effective registry w name = inr v.
Proof.
  intros Hs Hv. unfold effective. rewrite Hs.
  rewrite (scan_top _ _ _ _ v) by exact Hv. reflexivity.
Qed.

Lemma find_none_intro {A} (f : A -> bool) (l : list A) :
  (forall x, In x l -> f x = false) -> List.find f l = None.
Proof.
  induction l as [|a l IH]; intros H; [reflexivity|].
  simpl. rewrite (H a) by (left; reflexivity).
  apply IH. intros x Hx. apply H. right. exact Hx.
Qed.

(** The constructor on registered names: a new object with these
    overrides, and nothing else changes. *)
Lemma Session_ok kwargs (w : World X) :
  (forall kv, In kv kwargs -> registered registry (fst kv) = true) ->
  Session registry kwargs w =
    (Ok (next_oid w),
     mkWorld (<[next_oid w := list_to_map kwargs]> (heap w)) (S (next_oid w))
             (stack w) (journal w) (ext w)).
Proof.
  intros H. unfold Session.
  rewrite find_none_intro; [reflexivity|].
  intros kv Hkv. rewrite (H kv Hkv). reflexivity.
Qed.

(** Whether it returns or raises, the constructor leaves the stack, the
    outside and the objects that exist alone. *)
Lemma Session_frame kwargs (w : World X) :
  stack (snd (Session registry kwargs w)) = stack w /\
  journal (snd (Session registry kwargs w)) = journal w /\
  ext (snd (Session registry kwargs w)) = ext w /\
  (forall sid, sid <> next_oid w ->
     heap (snd (Session registry kwargs w)) !! sid = heap w !! sid).
Proof.
  unfold Session.
  destruct (List.find _ kwargs) as [[name v]|]; simpl; repeat split; auto.
  intros sid Hsid. rewrite lookup_insert_ne; auto.
Qed.

End CoreFacts.

(** *** What a returning constructor or [from_document] has done *)

Section Inversion.

Context {X : Type} (registry : list (string * SessionItem X)).

Lemma Session_inv kwargs (w w' : World X) sid :
  Session registry kwargs w = (Ok sid, w') ->
  sid = next_oid w /\
  w' = mkWorld (<[next_oid w := list_to_map kwargs]> (heap w)) (S (next_oid w))
               (stack w) (journal w) (ext w).
Proof.
  unfold Session.
  destruct (List.find _ kwargs) as [[name v]|]; intros H; inversion H; auto.
Qed.

Lemma Session_raise kwargs (w w' : World X) e :
  Session registry kwargs w = (Raise e, w') -> w' = w.
Proof.
  unfold Session.
  destruct (List.find _ kwargs) as [[name v]|]; intros H; inversion H; auto.
Qed.

Context {Encoded : Type} (decode : Encoded -> Value).

Lemma from_document_inv (doc : Document Encoded) (w w' : World X) sid :
  from_document registry decode doc w = (Ok sid, w') ->
  NoDup (fst <$> doc) /\
  sid = next_oid w /\
  w' = mkWorld (<[next_oid w := list_to_map (decode_item decode <$> doc)]> (heap w))
               (S (next_oid w)) (stack w) (journal w) (ext w).
Proof.
  unfold from_document. case_bool_decide as Hnd.
  - intros H. split; [exact Hnd|]. exact (Session_inv _ _ _ _ H).
  - discriminate.
Qed.

Lemma from_document_raise (doc : Document Encoded) (w w' : World X) e :
  from_document registry decode doc w = (Raise e, w') -> w' = w.
Proof.
  unfold from_document. case_bool_decide as Hnd.
  - apply Session_raise.
  - intros H. inversion H. reflexivity.
Qed.

End Inversion.

(** *** What activation and deactivation look at *)

Section Agree.

Context {X : Type} (registry : list (string * SessionItem X)).

Lemma scan_agree h1 h2 stk name :
  (forall s, In s stk -> from_option id ∅ (h1 !! s) = from_option id ∅ (h2 !! s)) ->
  scan h1 stk name = scan h2 stk name.
Proof.
  induction stk as [|s stk IH]; intros H; [reflexivity|].
  simpl. rewrite (H s) by (left; reflexivity).
  rewrite IH; [reflexivity|]. intros s' Hs'. apply H. right. exact Hs'.
Qed.

Lemma changed_agree h1 h2 old new (its : list (string * SessionItem X)) :
  (forall s, In s (old ++ new) ->
     from_option id ∅ (h1 !! s) = from_option id ∅ (h2 !! s)) ->
  changed h1 old new its = changed h2 old new its.
Proof.
  intros H.
  assert (Hv : forall stk name (it : SessionItem X),
            (forall s, In s stk -> In s (old ++ new)) ->
            value_under h1 stk name it = value_under h2 stk name it).
  { intros stk name it Hin. unfold value_under.
    rewrite (scan_agree h1 h2 stk name); [reflexivity|].
    intros s Hs. apply H, Hin, Hs. }
  unfold changed.
  induction its as [|[name it] its IH]; [reflexivity|].
  cbn [omap list_omap]. rewrite IH.
  rewrite (Hv old name it) by (intros s Hs; apply in_or_app; auto).
  rewrite (Hv new name it) by (intros s Hs; apply in_or_app; auto).
  reflexivity.
Qed.

(** Entering a session looks at the overrides of that session and of the
    sessions on the stack, at the stack and at the outside, and at nothing
    else: two worlds that agree on these see the same setters called with
    the same values, the same outcome and the same stack. *)
Lemma activate_agree sid (w1 w2 : World X) :
  stack w1 = stack w2 ->
  ext w1 = ext w2 ->
  (forall s, In s (sid :: stack w2) -> overrides w1 s = overrides w2 s) ->
  fst (activate registry sid w1) = fst (activate registry sid w2) /\
  ext (snd (activate registry sid w1)) = ext (snd (activate registry sid w2)) /\
  stack (snd (activate registry sid w1)) = stack (snd (activate registry sid w2)).
Proof.
  intros Hs Hx Ho. unfold activate. rewrite Hs, Hx.
  rewrite (changed_agree (heap w1) (heap w2)).
  - destruct (fire _ (ext w2)) as [[[]|e] x]; simpl; auto.
  - intros s Hin. apply Ho. apply in_app_or in Hin.
    destruct Hin as [Hin|Hin]; [right; exact Hin|exact Hin].
Qed.

Lemma deactivate_agree sid (w1 w2 : World X) :
  stack w1 = stack w2 ->
  ext w1 = ext w2 ->
  (forall s, In s (sid :: stack w2) -> overrides w1 s = overrides w2 s) ->
  fst (deactivate registry sid w1) = fst (deactivate registry sid w2) /\
  ext (snd (deactivate registry sid w1)) = ext (snd (deactivate registry sid w2)) /\
  stack (snd (deactivate registry sid w1)) = stack (snd (deactivate registry sid w2)).
Proof.
  intros Hs Hx Ho. unfold deactivate. rewrite Hs, Hx.
  destruct (stack w2) as [|top below] eqn:Hst;
    [simpl; repeat split; congruence|].
  case_bool_decide; [|simpl; repeat split; congruence].
  rewrite (Ho sid) by (left; reflexivity).
  rewrite (changed_agree (heap w1) (heap w2)).
  - destruct (fire _ (ext w2)) as [[[]|e] x]; simpl; repeat split; congruence.
  - intros s Hin. apply Ho. right. apply in_app_or in Hin.
    destruct Hin as [Hin|Hin]; [exact Hin|right; exact Hin].
Qed.

(** The constructor hands out the next identity, or none. *)
Lemma Session_next_oid kwargs (w : World X) :
  next_oid w <= next_oid (snd (Session registry kwargs w)).
Proof.
  unfold Session. destruct (List.find _ kwargs) as [[name v]|]; simpl; lia.
Qed.

End Agree.


(** *** Reading back what was rendered *)

Lemma append_cons (x : ascii) (a b : string) : String x a +:+ b = String x (a +:+ b).
Proof. reflexivity. Qed.

Lemma append_nil (b : string) : EmptyString +:+ b = b.
Proof. reflexivity. Qed.

Lemma append_assoc (a b c : string) : (a +:+ b) +:+ c = a +:+ (b +:+ c).
Proof.
  induction a as [|x a IH]; [reflexivity|].
  rewrite !append_cons, IH. reflexivity.
Qed.

Lemma unquote_escape (s tl : string) :
  unquote (escape s +:+ String dquote tl) = Some (s, tl).
Proof.
  induction s as [|c s IH]; [reflexivity|].
  cbn [escape].
  destruct (Ascii.eqb c dquote) eqn:Eq.
  - apply Ascii.eqb_eq in Eq. subst c. cbn [orb].
    rewrite !append_cons. cbn. rewrite IH. reflexivity.
  - destruct (Ascii.eqb c backslash) eqn:Eb.
    + apply Ascii.eqb_eq in Eb. subst c. cbn [orb].
      rewrite !append_cons. cbn. rewrite IH. reflexivity.
    + cbn [orb]. destruct (Ascii.eqb c newline) eqn:En.
      * apply Ascii.eqb_eq in En. subst c.
        rewrite !append_cons. cbn. rewrite IH. reflexivity.
      * rewrite append_cons. cbn [unquote]. rewrite Eq, Eb, IH. reflexivity.
Qed.

Lemma read_quoted_quote (s tl : string) :
  read_quoted (quote s +:+ tl) = Some (s, tl).
Proof.
  unfold quote. rewrite append_cons, append_assoc, append_cons, append_nil.
  cbn [read_quoted]. rewrite Ascii.eqb_refl. apply unquote_escape.
Qed.

Lemma read_quoted_only (s : string) :
  read_quoted (quote s) = Some (s, EmptyString).
Proof.
  unfold quote. cbn [read_quoted]. rewrite Ascii.eqb_refl. apply unquote_escape.
Qed.

(** A character that is neither a line feed nor a double quote. *)
Definition plain (c : ascii) : bool :=
  negb (Ascii.eqb c newline) && negb (Ascii.eqb c dquote).

Fixpoint all_chars (p : ascii -> bool) (s : string) : bool :=
  match s with
  | EmptyString => true
  | String c rest => p c && all_chars p rest
  end.

Definition oneline (s : string) : bool :=
  all_chars (fun c => negb (Ascii.eqb c newline)) s.

Lemma all_chars_app p (a b : string) :
  all_chars p (a +:+ b) = all_chars p a && all_chars p b.
Proof.
  induction a as [|c a IH]; [reflexivity|].
  rewrite append_cons. cbn [all_chars]. rewrite IH. apply andb_assoc.
Qed.

Lemma plain_oneline (s : string) : all_chars plain s = true -> oneline s = true.
Proof.
  unfold oneline. induction s as [|c s IH]; [reflexivity|].
  cbn [all_chars]. intros H. apply andb_true_iff in H. destruct H as [Hc Hs].
  unfold plain in Hc. apply andb_true_iff in Hc. destruct Hc as [Hc _].
  rewrite Hc, (IH Hs). reflexivity.
Qed.

Lemma oneline_escape (s : string) : oneline (escape s) = true.
Proof.
  unfold oneline. induction s as [|c s IH]; [reflexivity|].
  cbn [escape].
  destruct (Ascii.eqb c dquote) eqn:Eq.
  - apply Ascii.eqb_eq in Eq. subst c. cbn. exact IH.
  - destruct (Ascii.eqb c backslash) eqn:Eb.
    + apply Ascii.eqb_eq in Eb. subst c. cbn. exact IH.
    + cbn [orb]. destruct (Ascii.eqb c newline) eqn:En.
      * cbn. exact IH.
      * cbn [all_chars]. rewrite En, IH. reflexivity.
Qed.

Lemma oneline_quote (s : string) : oneline (quote s) = true.
Proof.
  unfold quote, oneline. cbn [all_chars]. rewrite all_chars_app.
  fold (oneline (escape s)). rewrite oneline_escape. reflexivity.
Qed.

Lemma lines_append (l rest : string) :
  oneline l = true -> lines (l +:+ String newline rest) = l :: lines rest.
Proof.
  unfold oneline. induction l as [|c l IH]; intros H.
  - reflexivity.
  - cbn [all_chars] in H. apply andb_true_iff in H. destruct H as [Hc Hl].
    apply negb_true_iff in Hc.
    rewrite append_cons. cbn [lines]. rewrite Hc, (IH Hl). reflexivity.
Qed.


(** A decimal numeral has digits only, with a minus sign before them at
    most. *)
Lemma uint_of_char_plain c d d' :
  DecimalString.uint_of_char c d = Some d' -> plain c = true.
Proof.
  destruct d as [d|]; [|discriminate].
  intros H. apply DecimalString.uint_of_char_spec in H.
  decompose [or and] H; subst c; reflexivity.
Qed.

Lemma uint_of_string_plain (s : string) d :
  DecimalString.NilEmpty.uint_of_string s = Some d -> all_chars plain s = true.
Proof.
  revert d. induction s as [|c s IH]; intros d H; [reflexivity|].
  cbn [DecimalString.NilEmpty.uint_of_string] in H. cbn [all_chars].
  rewrite (uint_of_char_plain _ _ _ H).
  destruct (DecimalString.NilEmpty.uint_of_string s) as [d0|]; [|discriminate].
  rewrite (IH d0 eq_refl). reflexivity.
Qed.

Lemma int_of_string_plain (s : string) i :
  DecimalString.NilZero.int_of_string s = Some i -> all_chars plain s = true.
Proof.
  destruct s as [|c s]; [discriminate|].
  unfold DecimalString.NilZero.int_of_string.
  destruct (Ascii.eqb c "-") eqn:Ec.
  - apply Ascii.eqb_eq in Ec. subst c.
    unfold DecimalString.NilZero.uint_of_string.
    destruct s as [|c s]; [discriminate|].
    destruct (DecimalString.NilEmpty.uint_of_string (String c s)) as [d|] eqn:Hd;
      [|discriminate].
    intros _. change (all_chars plain (String c s) = true).
    exact (uint_of_string_plain _ _ Hd).
  - unfold DecimalString.NilZero.uint_of_string.
    destruct (DecimalString.NilEmpty.uint_of_string (String c s)) as [d|] eqn:Hd;
      [|discriminate].
    intros _. exact (uint_of_string_plain _ _ Hd).
Qed.

Lemma int_of_string_of_Z (z : Z) :
  DecimalString.NilZero.int_of_string
    (DecimalString.NilZero.string_of_int (Z.to_int z)) = Some (Z.to_int z).
Proof.
  apply DecimalString.NilZero.isi.
  - destruct z as [|p|p]; simpl; try discriminate.
    intros H. inversion H as [H']. exact (DecimalPos.Unsigned.to_uint_nonnil p H').
  - destruct z as [|p|p]; simpl; try discriminate.
    intros H. inversion H as [H']. exact (DecimalPos.Unsigned.to_uint_nonnil p H').
Qed.

Lemma parse_scalar_render (e : Scalar) : parse_scalar (render_scalar e) = Some e.
Proof.
  destruct e as [[|]|z|s]; [reflexivity|reflexivity| |].
  - cbn [render_scalar].
    pose proof (int_of_string_of_Z z) as Hi.
    pose proof (int_of_string_plain _ _ Hi) as Hp.
    destruct (DecimalString.NilZero.string_of_int (Z.to_int z)) as [|c tok] eqn:Htok;
      [discriminate|].
    cbn [all_chars] in Hp. apply andb_true_iff in Hp. destruct Hp as [Hc _].
    unfold plain in Hc. apply andb_true_iff in Hc. destruct Hc as [_ Hc].
    apply negb_true_iff in Hc.
    unfold parse_scalar. rewrite Hc.
    destruct (String.eqb (String c tok) "true") eqn:Et.
    { apply String.eqb_eq in Et. rewrite Et in Hi. discriminate Hi. }
    destruct (String.eqb (String c tok) "false") eqn:Ef.
    { apply String.eqb_eq in Ef. rewrite Ef in Hi. discriminate Hi. }
    rewrite Hi, DecimalZ.of_to. reflexivity.
  - cbn [render_scalar]. unfold parse_scalar.
    rewrite read_quoted_only. unfold quote. rewrite Ascii.eqb_refl. reflexivity.
Qed.

Lemma oneline_render_scalar (e : Scalar) : oneline (render_scalar e) = true.
Proof.
  destruct e as [[|]|z|s]; [reflexivity|reflexivity| |].
  - apply plain_oneline. exact (int_of_string_plain _ _ (int_of_string_of_Z z)).
  - apply oneline_quote.
Qed.

Lemma oneline_render_entry ke : oneline (render_entry ke) = true.
Proof.
  unfold render_entry, oneline. rewrite !all_chars_app.
  fold (oneline (quote (fst ke))). fold (oneline (render_scalar (snd ke))).
  rewrite oneline_quote, oneline_render_scalar. reflexivity.
Qed.

Lemma parse_entry_render ke : parse_entry (render_entry ke) = Some ke.
Proof.
  destruct ke as [k e]. unfold parse_entry, render_entry. cbn [fst snd].
  rewrite read_quoted_quote.
  rewrite !append_cons, append_nil. cbn [expect]. rewrite !Ascii.eqb_refl.
  rewrite parse_scalar_render. reflexivity.
Qed.

(** The format reads back what it wrote. *)
Lemma parse_render (doc : Document Scalar) : parse (render doc) = Some doc.
Proof.
  unfold parse. induction doc as [|ke doc IH]; [reflexivity|].
  cbn [render]. rewrite lines_append by apply oneline_render_entry.
  cbn [parse_entries]. rewrite parse_entry_render, IH. reflexivity.
Qed.


(** *** The round trip through [save] and [load] *)

Lemma scalar_decode_encode v e : scalar_encode v = Some e -> scalar_decode e = v.
Proof. destruct v; simpl; intros H; inversion H; reflexivity. Qed.

Lemma encode_items_all (items : list (string * Value)) :
  (forall kv, In kv items -> is_Some (scalar_encode (snd kv))) ->
  fst <$> omap (encode_item scalar_encode) items = fst <$> items /\
  decode_item scalar_decode <$> omap (encode_item scalar_encode) items = items /\
  omap (skipped_item scalar_encode) items = [].
Proof.
  induction items as [|[k v] items IH]; intros H; [auto|].
  destruct IH as (IH1 & IH2 & IH3).
  { intros kv Hkv. apply H. right. exact Hkv. }
  destruct (H (k, v)) as [e He]; [left; reflexivity|]. simpl in He.
  assert (E1 : encode_item scalar_encode (k, v) = Some (k, e)).
  { unfold encode_item. simpl. rewrite He. reflexivity. }
  assert (E2 : skipped_item scalar_encode (k, v) = None).
  { unfold skipped_item. simpl. rewrite He. reflexivity. }
  cbn -[encode_item skipped_item decode_item]. rewrite E1, E2.
  cbn -[encode_item skipped_item decode_item].
  rewrite IH1, IH2, IH3. unfold decode_item at 1. simpl.
  rewrite (scalar_decode_encode v e He). auto.
Qed.

Section RoundTrip.

Context {X : Type} (registry : list (string * SessionItem X)).

(** The constructor returns sessions that override registered items
    only. *)
Lemma Session_registered kwargs (w0 w : World X) sid :
  Session registry kwargs w0 = (Ok sid, w) ->
  forall k, is_Some (overrides w sid !! k) -> registered registry k = true.
Proof.
  intros HS k [v Hk].
  assert (Hfind : List.find (fun kv => negb (registered registry (fst kv))) kwargs = None).
  { unfold Session in HS.
    destruct (List.find _ kwargs) as [[name v']|]; [discriminate|reflexivity]. }
  destruct (Session_inv registry _ _ _ _ HS) as [-> ->].
  unfold overrides in Hk. simpl in Hk. rewrite lookup_insert_eq in Hk. simpl in Hk.
  apply elem_of_list_to_map_2 in Hk. apply list_elem_of_In in Hk.
  pose proof (List.find_none _ _ Hfind _ Hk) as Hr. simpl in Hr.
  apply negb_false_iff in Hr. exact Hr.
Qed.

(** What [load] does with the text [save] wrote, when every override is
    encodable. *)
Lemma load_save (w w1 : World X) (sid : nat) :
  (forall k v, overrides w sid !! k = Some v -> is_Some (scalar_encode v)) ->
  snd (save w sid) = [] /\
  load registry (fst (save w sid)) w1
    = Session registry (map_to_list (overrides w sid)) w1.
Proof.
  intros Henc.
  assert (Hall : forall kv, In kv (map_to_list (overrides w sid)) ->
                            is_Some (scalar_encode (snd kv))).
  { intros [k v] Hkv. apply (Henc k v).
    apply elem_of_map_to_list. apply list_elem_of_In. exact Hkv. }
  destruct (encode_items_all _ Hall) as (H1 & H2 & H3).
  unfold save, load, to_document. cbn [fst snd].
  split; [exact H3|].
  rewrite parse_render. unfold from_document. rewrite H1, H2.
  rewrite bool_decide_eq_true_2 by apply NoDup_fst_map_to_list.
  reflexivity.
Qed.

(** C7 (round trip).  A session whose overrides are all encodable: [save]
    skips nothing, and [load] of the text it wrote, in whatever world, where
    the registry knows the session's names, returns a new session whose
    overrides are the same map, names and values, and leaves everything
    else as it was.  The registry knows the names of every session its
    constructor returned, so for these the round trip holds as it stands.
    Where the registry has lost one of the names, [load] raises
    [UnknownItemError] for such a name and changes nothing. *)
Theorem save_load_round_trip (w : World X) (sid : nat) :
  (forall k v, overrides w sid !! k = Some v -> is_Some (scalar_encode v)) ->
  snd (save w sid) = [] /\
  (forall w1 : World X,
     (forall k, is_Some (overrides w sid !! k) -> registered registry k = true) ->
     fst (load registry (fst (save w sid)) w1) = Ok (next_oid w1) /\
     overrides (snd (load registry (fst (save w sid)) w1)) (next_oid w1)
       = overrides w sid /\
     (forall other, other <> next_oid w1 ->
        heap (snd (load registry (fst (save w sid)) w1)) !! other = heap w1 !! other) /\
     stack (snd (load registry (fst (save w sid)) w1)) = stack w1 /\
     journal (snd (load registry (fst (save w sid)) w1)) = journal w1 /\
     ext (snd (load registry (fst (save w sid)) w1)) = ext w1) /\
  (forall kwargs (w0 w1 : World X),
     Session registry kwargs w0 = (Ok sid, w) ->
     fst (load registry (fst (save w sid)) w1) = Ok (next_oid w1) /\
     overrides (snd (load registry (fst (save w sid)) w1)) (next_oid w1)
       = overrides w sid) /\
  (forall (w1 : World X) k,
     is_Some (overrides w sid !! k) -> registered registry k = false ->
     exists name,
       load registry (fst (save w sid)) w1 = (Raise (UnknownItemError name), w1) /\
       is_Some (overrides w sid !! name) /\ registered registry name = false).
Proof.
  intros Henc.
  assert (Hok : forall w1 : World X,
            (forall k, is_Some (overrides w sid !! k) -> registered registry k = true) ->
            load registry (fst (save w sid)) w1 =
              (Ok (next_oid w1),
               mkWorld (<[next_oid w1 := overrides w sid]> (heap w1)) (S (next_oid w1))
                       (stack w1) (journal w1) (ext w1))).
  { intros w1 Hreg. destruct (load_save w w1 sid Henc) as [_ ->].
    rewrite Session_ok.
    - rewrite list_to_map_to_list. reflexivity.
    - intros [k v] Hkv. simpl. apply Hreg. exists v.
      apply elem_of_map_to_list. apply list_elem_of_In. exact Hkv. }
  split; [apply (load_save w w sid Henc)|].
  split.
  { intros w1 Hreg. rewrite (Hok w1 Hreg). cbn [fst snd heap stack journal ext].
    split; [reflexivity|]. split.
    { unfold overrides at 1. cbn [heap]. rewrite lookup_insert_eq. reflexivity. }
    split; [|auto].
    intros other Hother. rewrite lookup_insert_ne by congruence. reflexivity. }
  split.
  { intros kwargs w0 w1 HS.
    rewrite (Hok w1 (Session_registered kwargs w0 w sid HS)). cbn [fst snd].
    split; [reflexivity|].
    unfold overrides at 1. cbn [heap]. rewrite lookup_insert_eq. reflexivity. }
  intros w1 k [v Hk] Hr.
  destruct (load_save w w1 sid Henc) as [_ ->].
  unfold Session.
  destruct (List.find (fun kv => negb (registered registry (fst kv)))
                      (map_to_list (overrides w sid))) as [[name v']|] eqn:Hfind.
  - apply List.find_some in Hfind. destruct Hfind as [Hin Hn]. simpl in Hn.
    exists name. split; [reflexivity|]. split.
    + exists v'. apply elem_of_map_to_list. apply list_elem_of_In. exact Hin.
    + apply negb_true_iff in Hn. exact Hn.
  - assert (Hin : In (k, v) (map_to_list (overrides w sid))).
    { apply list_elem_of_In. apply elem_of_map_to_list. exact Hk. }
    pose proof (List.find_none _ _ Hfind _ Hin) as Hn. simpl in Hn.
    rewrite Hr in Hn. discriminate Hn.
Qed.

End RoundTrip.


(** An example: three items, and a session that overrides all of them. *)
Definition example_registry : list (string * SessionItem unit) :=
  [("log_file", mkItem VNone None); ("save_path", mkItem VNone None);
   ("log_level", mkItem (VInt 20) None)].

Definition example_overrides : list (string * Value) :=
  [("save_path", VStr "runs\first"); ("log_file", VStr "runs\first/log");
   ("log_level", VInt (-999))].

Definition saved_world : World unit :=
  snd (Session example_registry example_overrides (mkWorld ∅ 0 [] [] tt)).

Lemma saved_world_overrides :
  overrides saved_world 0 = list_to_map example_overrides.
Proof. reflexivity. Qed.

Lemma saved_world_entries k v :
  overrides saved_world 0 !! k = Some v -> In (k, v) example_overrides.
Proof.
  rewrite saved_world_overrides. intros H.
  apply elem_of_list_to_map_2 in H. apply list_elem_of_In. exact H.
Qed.

Lemma saved_world_encodable k v :
  overrides saved_world 0 !! k = Some v -> is_Some (scalar_encode v).
Proof.
  intros H. apply saved_world_entries in H. simpl in H.
  destruct H as [H|[H|[H|[]]]]; inversion H; subst; simpl; eauto.
Qed.

Lemma saved_world_registered k :
  is_Some (overrides saved_world 0 !! k) -> registered example_registry k = true.
Proof.
  intros [v H]. apply saved_world_entries in H. simpl in H.
  destruct H as [H|[H|[H|[]]]]; inversion H; subst; reflexivity.
Qed.

Lemma save_load_round_trip_witness :
  snd (save saved_world 0) = [] /\
  fst (load example_registry (fst (save saved_world 0)) saved_world) = Ok 1 /\
  overrides (snd (load example_registry (fst (save saved_world 0)) saved_world)) 1
    = overrides saved_world 0.
Proof.
  destruct (save_load_round_trip example_registry saved_world 0 saved_world_encodable)
    as (Hskip & Hload & _).
  destruct (Hload saved_world saved_world_registered) as (Hfst & Hover & _).
  split; [exact Hskip|]. split; [exact Hfst|exact Hover].
Defined.

End session.

(** ** The command-line entry point ([src/hssl/__main__.py]) *)
Module main.

Import session.

Local Open Scope py_scope.

(** The project configuration: what [tomlkit.loads] and [merge_config]
    hand back, tables as association lists in document order. *)
#[local] Unset Elimination Schemes.
Inductive Toml :=
| TStr (s : string)
| TInt (z : Z)
| TBool (b : bool)
| TArray (items : list Toml)
| TTable (entries : list (string * Toml)).
#[local] Set Elimination Schemes.

Fixpoint assoc {A} (k : string) (l : list (string * A)) : option A :=
  match l with
  | [] => None
  | (k', v) :: rest => if bool_decide (k' = k) then Some v else assoc k rest
  end.

(** Replaces the entry of [k] where it stands, or adds one at the end. *)
Fixpoint update {A} (k : string) (v : A) (l : list (string * A)) : list (string * A) :=
  match l with
  | [] => [(k, v)]
  | (k', v') :: rest =>
      if bool_decide (k' = k) then (k, v) :: rest else (k', v') :: update k v rest
  end.

(** [d[k]] for a string key: a [KeyError] on a table without it, a
    [TypeError] on anything that is not a table. *)
Definition getitem (d : Toml) (k : string) : Result Toml :=
  match d with
  | TTable entries =>
      match assoc k entries with
      | Some v => Ok v
      | None => Raise (KeyError k)
      end
  | _ => Raise TypeError
  end.

(** [d[k] = v]; the table is returned in place of being mutated. *)
Definition setitem (d : Toml) (k : string) (v : Toml) : Result Toml :=
  match d with
  | TTable entries => Ok (TTable (update k v entries))
  | _ => Raise TypeError
  end.

(** [v != s] for a string [s]. *)
Definition ne_str (v : Toml) (s : string) : bool :=
  match v with
  | TStr s' => negb (String.eqb s' s)
  | _ => true
  end.

(** [config["xfuse"]["version"]] *)
Definition xfuse_version (config : Toml) : Result Toml :=
  match getitem config "xfuse" with
  | Ok xfuse => getitem xfuse "version"
  | Raise e => Raise e
  end.

Definition DEBUG : Z := 10.
Definition WARNING : Z := 30.

(** A call of [hssl.logging.log]. *)
Record LogRecord := mkLogRecord {
  levelno : Z;
  msg : string;
  args : list Toml;
}.

(** A file opened for reading by [click.File("rb")]. *)
Record File := mkFile {
  name : string;
  content : string;
}.

Definition try {S A} (r : Result A) : M S A := fun s => (r, s).

Definition __package__ : string := "hssl".

(** [_DEFAULT_SESSION = Session()] runs when the module is imported: the
    global names the first object of the heap. *)
Definition _DEFAULT_SESSION : nat := 0.

Section Program.

(** What lies outside the sessions and the log: files, the terminal, the
    training run. *)
Variable Y : Type.

Record Env := mkEnv {
  log_calls : list LogRecord;   (* oldest first *)
  outside : Y;
}.

Definition World : Type := session.World Env.

Definition log (level : Z) (msg : string) (args : list Toml) : M World unit :=
  lift (modify (fun e => mkEnv (log_calls e ++ [mkLogRecord level msg args]) (outside e))).

(** [def _panic(...)]: a new function object. *)
Definition new_function : M World nat :=
  fun w => (Ok (next_oid w),
            mkWorld (heap w) (S (next_oid w)) (stack w) (journal w) (ext w)).

(** [cli], the callback of the command group; it runs before the
    subcommand. *)
Definition cli (debug : bool) : M World unit :=
  if debug then
    _panic <- new_function;;
    (setattr _DEFAULT_SESSION "panic" (VCallable _panic);;;
     setattr _DEFAULT_SESSION "log_level" (VInt (-999)))
  else ret tt.

(** The item registry as the imported modules have filled it. *)
Variable registry : list (string * SessionItem Env).

(** The package's version and the command line. *)
Variable __version__ : string.
Variable argv : list string.

(** Collaborators that are called but not looked into.  They act on what
    lies outside the sessions; [run_model] stands for lines 185 to 230 of
    [run] (writing the merged configuration, expanding the slide paths,
    building the design matrix and calling [hssl.run.run]), which read the
    effective session values. *)
Variable first_unique_filename : string -> M Env string.
Variable tomlkit_loads : string -> Result Toml.
Variable merge_config : Toml -> Result Toml.
Variable run_model :
  File -> string -> Toml -> (string -> Exn + Value) -> M Env unit.

(** The format of a saved session. *)
Variable Encoded : Type.
Variable parse_document : string -> option (Document Encoded).
Variable decode : Encoded -> Value.

(** Modelled from the spec: [load_session] of [hssl/utility/session.py]
    (missing from the sources): the document read from the file is loaded,
    with [MalformedSessionError] when it "is not structurally parseable". *)
Definition load_session (file : File) : M World nat :=
  match parse_document (content file) with
  | Some doc => from_document registry decode doc
  | None => raise MalformedSessionError
  end.

(** *** [contextlib.ExitStack] over sessions *)

(** [stack.enter_context(cm)] for each of [cms] in turn: a context that was
    entered is pushed on [registered]; the first [__enter__] that raises
    ends the loop. *)
Fixpoint enter_contexts (cms registered : list nat) (w : World)
  : Result unit * list nat * World :=
  match cms with
  | [] => (Ok tt, registered, w)
  | cm :: rest =>
      match activate registry cm w with
      | (Ok _, w') => enter_contexts rest (cm :: registered) w'
      | (Raise e, w') => (Raise e, registered, w')
      end
  end.

(** [ExitStack.__exit__]: the registered exits run last-in first-out, each
    one whatever the others did; an exit that raises replaces the
    exception that is under way. *)
Fixpoint unwind {A} (registered : list nat) (pending : Result A) (w : World)
  : Result A * World :=
  match registered with
  | [] => (pending, w)
  | cm :: rest =>
      match deactivate registry cm w with
      | (Ok _, w') => unwind rest pending w'
      | (Raise e, w') => unwind rest (Raise e) w'
      end
  end.

(** [with ExitStack() as stack: for cm in cms: stack.enter_context(cm);
    body] *)
Definition with_ExitStack {A} (cms : list nat) (body : M World A) : M World A :=
  fun w =>
    match enter_contexts cms [] w with
    | (Ok _, registered, w1) => let (r, w2) := body w1 in unwind registered r w2
    | (Raise e, registered, w1) => unwind registered (Raise e) w1
    end.

(** [with_(cm)] of [hssl/utility] decorates a function to run inside
    [with cm:]. *)
Definition with_ {A} (cm : nat) (f : M World A) : M World A :=
  with_ExitStack [cm] f.

Definition _init {A} (f : M World A) : M World A :=
  with_ _DEFAULT_SESSION
    (log DEBUG "this is %s %s" [TStr __package__; TStr __version__];;;
     log DEBUG "invoked by %s" [TStr (String.concat " " argv)];;;
     f).

(** *** [run] *)

(** Lines 157 to 165: the sessions to activate, in order. *)
Definition session_stack (save_path : string) (session : option File)
  : M World (list nat) :=
  loaded <- match session with
            | Some file => (s <- load_session file;; ret [s])
            | None => ret []
            end;;
  log_file <- lift (first_unique_filename (posixpath.join save_path "log"));;
  fresh <- Session registry [("save_path", VStr save_path); ("log_file", VStr log_file)];;
  ret (loaded ++ [fresh]).

(** Lines 174 to 183. *)
Definition check_version (config : Toml) : M World Toml :=
  recorded <- try (xfuse_version config);;
  if ne_str recorded __version__ then
    recorded <- try (xfuse_version config);;
    (log WARNING "Config was created using %s version %s but this is version %s"
         [TStr __package__; recorded; TStr __version__];;;
     xfuse <- try (getitem config "xfuse");;
     xfuse <- try (setitem xfuse "version" (TStr __version__));;
     try (setitem config "xfuse" xfuse))
  else ret config.

(** Lines 171 to 230, the body of the [with] block after the loop. *)
Definition body (project_file : File) (save_path : string) : M World unit :=
  config <- try (tomlkit_loads (content project_file));;
  config <- try (merge_config config);;
  config <- check_version config;;
  w <- get;;
  lift (run_model project_file save_path config (effective registry w)).

(** The function [run] as written, before [_init] decorates it. *)
Definition run (project_file : File) (save_path : string) (session : option File)
  : M World unit :=
  cms <- session_stack save_path session;;
  with_ExitStack cms (body project_file save_path).

(** The command [run]. *)
Definition run_command (project_file : File) (save_path : string)
    (session : option File) : M World unit :=
  _init (run project_file save_path session).

(** *** The version check *)

Lemma assoc_update_same {A} k (v : A) l : assoc k (update k v l) = Some v.
Proof.
  induction l as [|[k' v'] l IH]; simpl.
  - rewrite bool_decide_eq_true_2; reflexivity.
  - case_bool_decide; simpl.
    + rewrite bool_decide_eq_true_2; reflexivity.
    + rewrite bool_decide_eq_false_2; assumption.
Qed.

Lemma assoc_update_other {A} k k' (v : A) l :
  k' <> k -> assoc k' (update k v l) = assoc k' l.
Proof.
  intros Hne. induction l as [|[k0 v0] l IH]; simpl.
  - rewrite bool_decide_eq_false_2; [reflexivity|congruence].
  - case_bool_decide; simpl.
    + subst k0. rewrite !bool_decide_eq_false_2; congruence.
    + rewrite IH. reflexivity.
Qed.

Lemma ne_str_true v s : v <> TStr s -> ne_str v s = true.
Proof.
  destruct v as [s'| | | |]; simpl; auto.
  intros H. apply negb_true_iff, String.eqb_neq. congruence.
Qed.

Lemma ne_str_false v s : ne_str v s = false -> v = TStr s.
Proof.
  destruct v as [s'| | | |]; simpl; try discriminate.
  intros H. apply negb_false_iff, String.eqb_eq in H. congruence.
Qed.

(** A configuration that records a version is a table with a table under
    [xfuse]. *)
Lemma xfuse_version_inv config recorded :
  xfuse_version config = Ok recorded ->
  exists entries xentries,
    config = TTable entries /\
    assoc "xfuse" entries = Some (TTable xentries) /\
    assoc "version" xentries = Some recorded.
Proof.
  unfold xfuse_version, getitem.
  destruct config as [| | | |entries]; try discriminate.
  destruct (assoc "xfuse" entries) as [xfuse|] eqn:Hx; try discriminate.
  destruct xfuse as [| | | |xentries]; try discriminate.
  destruct (assoc "version" xentries) as [v|] eqn:Hv; try discriminate.
  intros H. inversion H; subst. eauto.
Qed.

(** The log after one more call. *)
Definition logging (level : Z) (msg : string) (args : list Toml) (w : World) : World :=
  with_ext (mkEnv (log_calls (ext w) ++ [mkLogRecord level msg args])
                  (outside (ext w))) w.

Lemma log_eq level msg args w : log level msg args w = (Ok tt, logging level msg args w).
Proof. reflexivity. Qed.

(** When the recorded version is the running one, nothing happens. *)
Lemma check_version_same config w :
  xfuse_version config = Ok (TStr __version__) ->
  check_version config w = (Ok config, w).
Proof.
  intros H. unfold check_version, bind, try. rewrite H.
  unfold ne_str. rewrite String.eqb_refl. reflexivity.
Qed.

(** C10 (version mismatch).  When the merged configuration records a version
    other than the running one, [run] calls [log] once at level [WARNING]
    with the package, the recorded and the running version, sets
    [config["xfuse"]["version"]] to the running version leaving every other
    entry as it was, raises nothing, and goes on to the rest of the run with
    that configuration. *)
Theorem run_version_mismatch_warns_and_continues
    (project_file : File) (save_path : string)
    (parsed config recorded : Toml) (w : World) :
  tomlkit_loads (content project_file) = Ok parsed ->
  merge_config parsed = Ok config ->
  xfuse_version config = Ok recorded ->
  recorded <> TStr __version__ ->
  let w' := logging WARNING
              "Config was created using %s version %s but this is version %s"
              [TStr __package__; recorded; TStr __version__] w in
  exists config',
    check_version config w = (Ok config', w') /\
    xfuse_version config' = Ok (TStr __version__) /\
    (forall k, k <> "xfuse" -> getitem config' k = getitem config k) /\
    (forall xfuse xfuse' k,
       getitem config "xfuse" = Ok xfuse -> getitem config' "xfuse" = Ok xfuse' ->
       k <> "version" -> getitem xfuse' k = getitem xfuse k) /\
    body project_file save_path w =
      lift (run_model project_file save_path config' (effective registry w')) w'.
Proof.
  intros Hparse Hmerge Hver Hne w'.
  destruct (xfuse_version_inv _ _ Hver) as (entries & xentries & -> & Hx & Hv).
  exists (TTable (update "xfuse" (TTable (update "version" (TStr __version__) xentries))
                         entries)).
  assert (Hcheck : check_version (TTable entries) w =
            (Ok (TTable (update "xfuse"
                   (TTable (update "version" (TStr __version__) xentries)) entries)), w')).
  { unfold check_version, bind, try. rewrite Hver.
    rewrite (ne_str_true _ _ Hne). rewrite log_eq.
    unfold getitem. rewrite Hx. reflexivity. }
  split; [exact Hcheck|].
  split.
  { unfold xfuse_version, getitem. rewrite assoc_update_same.
    rewrite assoc_update_same. reflexivity. }
  split.
  { intros k Hk. unfold getitem. rewrite assoc_update_other by exact Hk. reflexivity. }
  split.
  { intros xfuse xfuse' k H1 H2 Hk. unfold getitem in H1, H2.
    rewrite Hx in H1. rewrite assoc_update_same in H2.
    inversion H1; inversion H2; subst.
    unfold getitem. rewrite assoc_update_other by exact Hk. reflexivity. }
  unfold body, bind, try at 1 2. rewrite Hparse, Hmerge, Hcheck. reflexivity.
Qed.

(** *** Scopes *)



(** A computation that acts on the outside only. *)
Definition outside_only {A} (m : M World A) : Prop :=
  forall w, heap (snd (m w)) = heap w /\ next_oid (snd (m w)) = next_oid w /\
            stack (snd (m w)) = stack w /\ journal (snd (m w)) = journal w.




Lemma outside_only_bind {A B} (m : M World A) (k : A -> M World B) :
  outside_only m -> (forall a, outside_only (k a)) -> outside_only (bind m k).
Proof.
  intros Hm Hk w. unfold bind.
  destruct (Hm w) as (H1 & H2 & H3 & H4).
  destruct (m w) as [[a|e] w1]; simpl in *; [|auto].
  destruct (Hk a w1) as (K1 & K2 & K3 & K4).
  rewrite K1, K2, K3, K4. auto.
Qed.


Lemma outside_only_ret {A} (a : A) : outside_only (ret a : M World A).
Proof. intros w. simpl. auto. Qed.

Lemma outside_only_try {A} (r : Result A) : outside_only (try r : M World A).
Proof. intros w. simpl. auto. Qed.

Lemma outside_only_lift {A} (m : M Env A) : outside_only (lift m : M World A).
Proof. intros w. unfold lift. destruct (m (ext w)); simpl. auto. Qed.

Lemma outside_only_log level msg args : outside_only (log level msg args).
Proof. apply outside_only_lift. Qed.

Lemma outside_only_check_version config : outside_only (check_version config).
Proof.
  unfold check_version.
  apply outside_only_bind; [apply outside_only_try|]. intros recorded.
  destruct (ne_str recorded __version__); [|apply outside_only_ret].
  apply outside_only_bind; [apply outside_only_try|]. intros recorded'.
  apply outside_only_bind; [apply outside_only_log|]. intros _.
  apply outside_only_bind; [apply outside_only_try|]. intros xfuse.
  apply outside_only_bind; [apply outside_only_try|]. intros xfuse'.
  apply outside_only_try.
Qed.

Lemma outside_only_body project_file save_path :
  outside_only (body project_file save_path).
Proof.
  unfold body.
  apply outside_only_bind; [apply outside_only_try|]. intros parsed.
  apply outside_only_bind; [apply outside_only_try|]. intros config.
  apply outside_only_bind; [apply outside_only_check_version|]. intros config'.
  apply outside_only_bind; [intros w; simpl; auto|]. intros w0.
  apply outside_only_lift.
Qed.

(** The loop of [enter_context] calls: the sessions entered are a prefix of
    the list, all of it when the loop returned; they lie on the stack and
    in the exit stack, last one first. *)
Lemma enter_contexts_spec cms : forall registered (w : World),
  exists entered rest,
    cms = entered ++ rest /\
    snd (fst (enter_contexts cms registered w)) = reverse entered ++ registered /\
    stack (snd (enter_contexts cms registered w)) = reverse entered ++ stack w /\
    journal (snd (enter_contexts cms registered w))
      = journal w ++ (Activated <$> entered) /\
    heap (snd (enter_contexts cms registered w)) = heap w /\
    next_oid (snd (enter_contexts cms registered w)) = next_oid w /\
    (returned (fst (fst (enter_contexts cms registered w))) = true -> rest = []).
Proof.
  induction cms as [|cm cms IH]; intros registered w.
  - exists [], []. simpl. rewrite app_nil_r. repeat split; auto.
  - simpl.
    pose proof (activate_heap registry cm w) as [Hh Hn].
    pose proof (activate_ok registry cm w) as Hok.
    pose proof (activate_raise registry cm w) as Hraise.
    destruct (activate registry cm w) as [[[]|e] w1]; simpl in *.
    + destruct (Hok eq_refl) as [Hs Hj].
      destruct (IH (cm :: registered) w1) as (entered & rest & -> & H1 & H2 & H3 & H4 & H5 & H6).
      exists (cm :: entered), rest.
      rewrite H1, H2, H3, H4, H5, Hs, Hj, Hh, Hn.
      rewrite reverse_cons, <- !app_assoc. simpl.
      repeat split; auto.
    + destruct (Hraise eq_refl) as [Hs Hj].
      exists [], (cm :: cms). simpl. rewrite app_nil_r.
      repeat split; auto. discriminate.
Qed.


(** Leaving the block: the registered exits run last one first, each one
    whatever the others did.  An exit that returns has popped the top of
    the stack; one that raises has left the stack alone.  So a number [n] of
    sessions, at most the number registered, is off the stack; an exception
    under way is not lost, and when the whole returns every exit has
    popped. *)
Lemma unwind_pops {A} registered : forall (pending : Result A) (w : World),
  exists n,
    n <= length registered /\
    stack (snd (unwind registered pending w)) = drop n (stack w) /\
    journal (snd (unwind registered pending w))
      = journal w ++ (Deactivated <$> take n (stack w)) /\
    heap (snd (unwind registered pending w)) = heap w /\
    next_oid (snd (unwind registered pending w)) = next_oid w /\
    (returned pending = false ->
     returned (fst (unwind registered pending w)) = false) /\
    (returned (fst (unwind registered pending w)) = true -> n = length registered).
Proof.
  induction registered as [|cm registered IH]; intros pending w.
  - exists 0. simpl. rewrite app_nil_r. repeat split; auto.
  - simpl.
    pose proof (deactivate_heap registry cm w) as [Hh Hn].
    pose proof (deactivate_ok registry cm w) as Hok.
    pose proof (deactivate_raise registry cm w) as Hraise.
    destruct (deactivate registry cm w) as [[[]|e] w1]; simpl in *.
    + destruct (Hok eq_refl) as (below & Hs & Hs1 & Hj1).
      destruct (IH pending w1) as (n & Hle & H1 & H2 & H3 & H4 & H5 & H6).
      exists (S n). rewrite H1, H2, H3, H4, Hs1, Hj1, Hh, Hn, Hs. simpl.
      rewrite <- app_assoc. simpl.
      split; [lia|]. repeat split; auto; intros Hr; rewrite (H6 Hr); reflexivity.
    + destruct (Hraise eq_refl) as (Hs1 & Hj1).
      destruct (IH (Raise e) w1) as (n & Hle & H1 & H2 & H3 & H4 & H5 & H6).
      exists n. rewrite H1, H2, H3, H4, Hs1, Hj1, Hh, Hn.
      split; [lia|]. repeat split; auto;
        intros Hr; rewrite (H5 eq_refl) in Hr; discriminate Hr.
Qed.






















(** *** The order of activation in [run] *)

(** With a session file, [run] prepares two sessions: the one loaded from
    the file, then a new one with the run's [save_path] and [log_file]. *)
Lemma session_stack_loaded save_path file (w w1 : World) cms :
  session_stack save_path (Some file) w = (Ok cms, w1) ->
  exists doc log_file,
    parse_document (content file) = Some doc /\
    cms = [next_oid w; S (next_oid w)] /\
    stack w1 = stack w /\ journal w1 = journal w /\
    heap w1 = <[S (next_oid w) :=
                  list_to_map [("save_path", VStr save_path); ("log_file", VStr log_file)]]>
                (<[next_oid w := list_to_map (decode_item decode <$> doc)]> (heap w)).
Proof.
  unfold session_stack, bind at 1 2. unfold load_session.
  destruct (parse_document (content file)) as [doc|]; [|discriminate].
  destruct (from_document registry decode doc w) as [[loaded|e] wa] eqn:Hload; [|discriminate].
  apply from_document_inv in Hload. destruct Hload as (_ & -> & ->).
  unfold ret at 1. unfold bind at 1. unfold lift. simpl.
  destruct (first_unique_filename _ (ext w)) as [[log_file|e] x]; [|discriminate].
  unfold bind.
  destruct (Session registry _ _) as [[fresh|e] wc] eqn:Hfresh; [|discriminate].
  apply Session_inv in Hfresh. destruct Hfresh as (-> & ->). simpl.
  unfold ret. intros H. inversion H; subst.
  exists doc, log_file. simpl. auto.
Qed.

(** Entering two sessions in turn: both are on the stack, the second on
    top, and the objects are as before. *)
Lemma enter_contexts_two first second (w w2 : World) registered :
  enter_contexts [first; second] [] w = (Ok tt, registered, w2) ->
  stack w2 = second :: first :: stack w /\
  journal w2 = journal w ++ [Activated first; Activated second] /\
  heap w2 = heap w.
Proof.
  intros H.
  destruct (enter_contexts_spec [first; second] [] w)
    as (entered & rest & Hc & _ & Hs & Hj & Hh & _ & Hr).
  rewrite H in *. simpl in *.
  rewrite (Hr eq_refl), app_nil_r in Hc. subst entered.
  rewrite Hs, Hj, Hh. auto.
Qed.

(** C4 (the new session wins).  When [run] is given a session file and
    both sessions have been entered, the session loaded from the file was
    activated first and the new one second, so the new one is on top of the
    stack; the new one overrides [save_path] with the run's and [log_file];
    and whatever the new session overrides is the effective value, also for
    an item the loaded session overrides. *)
Theorem run_fresh_session_wins save_path file (w w1 w2 : World) cms registered :
  session_stack save_path (Some file) w = (Ok cms, w1) ->
  enter_contexts cms [] w1 = (Ok tt, registered, w2) ->
  exists loaded fresh doc log_file,
    cms = [loaded; fresh] /\
    parse_document (content file) = Some doc /\
    overrides w2 loaded = list_to_map (decode_item decode <$> doc) /\
    overrides w2 fresh
      = list_to_map [("save_path", VStr save_path); ("log_file", VStr log_file)] /\
    journal w2 = journal w ++ [Activated loaded; Activated fresh] /\
    stack w2 = fresh :: loaded :: stack w /\
    (forall name v,
       overrides w2 fresh !! name = Some v -> effective registry w2 name = inr v).
Proof.
  intros Hprep Henter.
  destruct (session_stack_loaded _ _ _ _ _ Hprep)
    as (doc & log_file & Hdoc & -> & Hs1 & Hj1 & Hh1).
  destruct (enter_contexts_two _ _ _ _ _ Henter) as (Hs2 & Hj2 & Hh2).
  exists (next_oid w), (S (next_oid w)), doc, log_file.
  split; [reflexivity|]. split; [exact Hdoc|].
  split.
  { unfold overrides. rewrite Hh2, Hh1.
    rewrite lookup_insert_ne by lia. rewrite lookup_insert_eq. reflexivity. }
  split.
  { unfold overrides. rewrite Hh2, Hh1. rewrite lookup_insert_eq. reflexivity. }
  split; [rewrite Hj2, Hj1; reflexivity|].
  split; [rewrite Hs2, Hs1; reflexivity|].
  intros name v Hv.
  apply (effective_top registry w2 (S (next_oid w)) (next_oid w :: stack w1)); assumption.
Qed.

(** *** [cli] and the sessions that exist *)

(** What [cli] does: with [--debug] it assigns [panic] (a new function) and
    [log_level = -999] on [_DEFAULT_SESSION] and changes nothing else;
    without, it changes nothing at all.  In both cases it returns. *)
Lemma cli_effect (w : World) :
  cli false w = (Ok tt, w) /\
  fst (cli true w) = Ok tt /\
  overrides (snd (cli true w)) _DEFAULT_SESSION
    = <["log_level" := VInt (-999)]>
        (<["panic" := VCallable (next_oid w)]> (overrides w _DEFAULT_SESSION)) /\
  (forall sid, sid <> _DEFAULT_SESSION ->
     heap (snd (cli true w)) !! sid = heap w !! sid) /\
  stack (snd (cli true w)) = stack w /\
  journal (snd (cli true w)) = journal w /\
  ext (snd (cli true w)) = ext w.
Proof.
  split; [reflexivity|]. split; [reflexivity|].
  unfold cli, bind, new_function, setattr, modify. simpl.
  split.
  { unfold overrides. simpl. rewrite !lookup_insert_eq. reflexivity. }
  split; [|auto].
  intros sid Hsid. rewrite !lookup_insert_ne by congruence. reflexivity.
Qed.

(** [keeps w w']: the sessions that exist in [w] are in [w'] with the
    overrides they had. *)
Definition keeps (w w' : World) : Prop :=
  next_oid w <= next_oid w' /\
  forall sid, sid < next_oid w -> heap w' !! sid = heap w !! sid.

Definition keeping {A} (m : M World A) : Prop := forall w, keeps w (snd (m w)).

Lemma keeps_refl w : keeps w w.
Proof. split; auto. Qed.

Lemma keeps_trans w1 w2 w3 : keeps w1 w2 -> keeps w2 w3 -> keeps w1 w3.
Proof.
  intros [Hn1 Hh1] [Hn2 Hh2]. split; [lia|].
  intros sid Hsid. rewrite Hh2 by lia. apply Hh1. exact Hsid.
Qed.

Lemma keeps_same (w w' : World) :
  heap w' = heap w -> next_oid w' = next_oid w -> keeps w w'.
Proof. intros Hh Hn. split; [lia|]. intros sid _. rewrite Hh. reflexivity. Qed.

Lemma keeping_bind {A B} (m : M World A) (k : A -> M World B) :
  keeping m -> (forall a, keeping (k a)) -> keeping (bind m k).
Proof.
  intros Hm Hk w. unfold bind. pose proof (Hm w) as H1.
  destruct (m w) as [[a|e] w1]; simpl in *; [|exact H1].
  eapply keeps_trans; [exact H1|apply Hk].
Qed.

Lemma keeping_outside_only {A} (m : M World A) : outside_only m -> keeping m.
Proof.
  intros H w. destruct (H w) as (Hh & Hn & _ & _). apply keeps_same; assumption.
Qed.

Lemma keeping_Session kwargs : keeping (Session registry kwargs).
Proof.
  intros w. split; [apply Session_next_oid|].
  intros sid Hsid. destruct (Session_frame registry kwargs w) as (_ & _ & _ & Hh).
  apply Hh. lia.
Qed.

Lemma keeping_load_session file : keeping (load_session file).
Proof.
  unfold load_session. destruct (parse_document (content file)) as [doc|].
  - unfold from_document. case_bool_decide; [apply keeping_Session|].
    intros w. apply keeps_refl.
  - intros w. apply keeps_refl.
Qed.

Lemma keeping_session_stack save_path session : keeping (session_stack save_path session).
Proof.
  unfold session_stack.
  apply keeping_bind.
  { destruct session as [file|].
    - apply keeping_bind; [apply keeping_load_session|].
      intros s. apply keeping_outside_only, outside_only_ret.
    - apply keeping_outside_only, outside_only_ret. }
  intros loaded. apply keeping_bind; [apply keeping_outside_only, outside_only_lift|].
  intros log_file. apply keeping_bind; [apply keeping_Session|].
  intros fresh. apply keeping_outside_only, outside_only_ret.
Qed.

Lemma keeping_activate sid : keeping (activate registry sid).
Proof.
  intros w. destruct (activate_heap registry sid w) as [Hh Hn].
  apply keeps_same; assumption.
Qed.

Lemma keeping_deactivate sid : keeping (deactivate registry sid).
Proof.
  intros w. destruct (deactivate_heap registry sid w) as [Hh Hn].
  apply keeps_same; assumption.
Qed.

Lemma keeping_with_ExitStack {A} cms (body : M World A) :
  keeping body -> keeping (with_ExitStack cms body).
Proof.
  intros Hbody w. unfold with_ExitStack.
  destruct (enter_contexts_spec cms [] w)
    as (entered & rest & _ & _ & _ & _ & Hh & Hn & _).
  destruct (enter_contexts cms [] w) as [[r registered] w1]; simpl in *.
  assert (K1 : keeps w w1) by (apply keeps_same; assumption).
  destruct r as [[]|e].
  - pose proof (Hbody w1) as K2. destruct (body w1) as [rb w2]; simpl in *.
    destruct (unwind_pops registered rb w2) as (n & _ & _ & _ & Uh & Un & _).
    eapply keeps_trans; [exact K1|]. eapply keeps_trans; [exact K2|].
    apply keeps_same; assumption.
  - destruct (unwind_pops registered (@Raise A e) w1) as (n & _ & _ & _ & Uh & Un & _).
    eapply keeps_trans; [exact K1|]. apply keeps_same; assumption.
Qed.

Lemma keeping_run project_file save_path session :
  keeping (run project_file save_path session).
Proof.
  unfold run. apply keeping_bind; [apply keeping_session_stack|].
  intros cms. apply keeping_with_ExitStack.
  apply keeping_outside_only, outside_only_body.
Qed.

Lemma keeping_init {A} (f : M World A) : keeping f -> keeping (_init f).
Proof.
  intros Hf. unfold _init, with_. apply keeping_with_ExitStack.
  apply keeping_bind; [apply keeping_outside_only, outside_only_log|]. intros _.
  apply keeping_bind; [apply keeping_outside_only, outside_only_log|]. intros _.
  exact Hf.
Qed.

(** C2, as the code has it.  A session that has been constructed keeps its
    overrides under everything the program does with sessions, with one
    exception.  The exception is [cli] with [--debug], which assigns
    [panic] and [log_level = -999] on [_DEFAULT_SESSION], leaves its other
    overrides, every other object, the stack and the outside as they are,
    and returns.  Everything else leaves the overrides of every session
    that exists alone: [cli] without [--debug], constructing and loading
    sessions, entering and leaving them, [run], and whatever runs under
    [_init], the command [run] among them.  And entering a session looks
    only at the overrides of that session and of the sessions on the stack,
    at the stack and at the outside: entered again where these are the
    same, it does the same, and so does leaving it. *)
Theorem sessions_unchanged_except_by_debug (w : World) (sid : nat) :
  sid < next_oid w ->
  (cli false w = (Ok tt, w) /\
   fst (cli true w) = Ok tt /\
   overrides (snd (cli true w)) _DEFAULT_SESSION
     = <["log_level" := VInt (-999)]>
         (<["panic" := VCallable (next_oid w)]> (overrides w _DEFAULT_SESSION)) /\
   (sid <> _DEFAULT_SESSION -> heap (snd (cli true w)) !! sid = heap w !! sid) /\
   stack (snd (cli true w)) = stack w /\
   journal (snd (cli true w)) = journal w /\
   ext (snd (cli true w)) = ext w) /\
  (forall kwargs, heap (snd (Session registry kwargs w)) !! sid = heap w !! sid) /\
  (forall file, heap (snd (load_session file w)) !! sid = heap w !! sid) /\
  (forall s, heap (snd (activate registry s w)) !! sid = heap w !! sid) /\
  (forall s, heap (snd (deactivate registry s w)) !! sid = heap w !! sid) /\
  (forall project_file save_path session,
     heap (snd (run project_file save_path session w)) !! sid = heap w !! sid) /\
  (forall A (f : M World A), keeping f -> heap (snd (_init f w)) !! sid = heap w !! sid) /\
  (forall project_file save_path session,
     heap (snd (run_command project_file save_path session w)) !! sid = heap w !! sid) /\
  (forall w' : World,
     stack w' = stack w -> ext w' = ext w ->
     (forall s, In s (sid :: stack w) -> overrides w' s = overrides w s) ->
     (fst (activate registry sid w') = fst (activate registry sid w) /\
      ext (snd (activate registry sid w')) = ext (snd (activate registry sid w)) /\
      stack (snd (activate registry sid w')) = stack (snd (activate registry sid w))) /\
     (fst (deactivate registry sid w') = fst (deactivate registry sid w) /\
      ext (snd (deactivate registry sid w')) = ext (snd (deactivate registry sid w)) /\
      stack (snd (deactivate registry sid w'))
        = stack (snd (deactivate registry sid w)))).
Proof.
  intros Hsid.
  destruct (cli_effect w) as (C1 & C2 & C3 & C4 & C5 & C6 & C7).
  split; [repeat split; auto|].
  split; [intros kwargs; apply (keeping_Session kwargs w), Hsid|].
  split; [intros file; apply (keeping_load_session file w), Hsid|].
  split; [intros s; apply (keeping_activate s w), Hsid|].
  split; [intros s; apply (keeping_deactivate s w), Hsid|].
  split; [intros pf sp s; apply (keeping_run pf sp s w), Hsid|].
  split; [intros A f Hf; apply (keeping_init f Hf w), Hsid|].
  split.
  - intros pf sp s. unfold run_command.
    apply (keeping_init _ (keeping_run pf sp s) w), Hsid.
  - intros w' Hs Hx Ho.
    split; [apply activate_agree|apply deactivate_agree]; assumption.
Qed.

(** *** More on the version check *)

Lemma ne_str_same s : ne_str (TStr s) s = false.
Proof. simpl. rewrite String.eqb_refl. reflexivity. Qed.

(** The check in closed form when the versions differ. *)
Lemma check_version_mismatch entries xentries recorded w :
  assoc "xfuse" entries = Some (TTable xentries) ->
  assoc "version" xentries = Some recorded ->
  ne_str recorded __version__ = true ->
  check_version (TTable entries) w =
    (Ok (TTable (update "xfuse"
                   (TTable (update "version" (TStr __version__) xentries)) entries)),
     logging WARNING "Config was created using %s version %s but this is version %s"
             [TStr __package__; recorded; TStr __version__] w).
Proof.
  intros Hx Hv Hne.
  unfold check_version, bind, try, xfuse_version, getitem.
  rewrite Hx, Hv, Hne, log_eq. reflexivity.
Qed.

(** The version check warns exactly when the recorded version is not the
    running one: with the same version the configuration and the world are
    returned as they are, and otherwise the log has one more call. *)
Theorem check_version_warns_iff_mismatch config recorded (w : World) :
  xfuse_version config = Ok recorded ->
  (recorded = TStr __version__ -> check_version config w = (Ok config, w)) /\
  (log_calls (ext (snd (check_version config w))) = log_calls (ext w)
   <-> recorded = TStr __version__).
Proof using Type.
  intros Hver. split.
  { intros ->. apply check_version_same. exact Hver. }
  destruct (ne_str recorded __version__) eqn:Hne.
  - destruct (xfuse_version_inv _ _ Hver) as (entries & xentries & -> & Hx & Hv).
    rewrite (check_version_mismatch _ _ _ w Hx Hv Hne). simpl.
    split.
    + intros H. apply (f_equal (@length LogRecord)) in H.
      rewrite length_app in H. simpl in H. lia.
    + intros ->. rewrite ne_str_same in Hne. discriminate Hne.
  - apply ne_str_false in Hne. subst recorded.
    rewrite check_version_same by exact Hver. simpl.
    split; intros _; reflexivity.
Qed.

(** Why [config["xfuse"]["version"]] raises. *)
Definition version_error (config : Toml) : option Exn :=
  match config with
  | TTable entries =>
      match assoc "xfuse" entries with
      | None => Some (KeyError "xfuse")
      | Some (TTable xentries) =>
          match assoc "version" xentries with
          | None => Some (KeyError "version")
          | Some _ => None
          end
      | Some _ => Some TypeError
      end
  | _ => Some TypeError
  end.

Lemma xfuse_version_raises config e :
  xfuse_version config = Raise e <-> version_error config = Some e.
Proof.
  unfold xfuse_version, version_error, getitem.
  destruct config as [| | | |entries]; try (split; intros H; inversion H; reflexivity).
  destruct (assoc "xfuse" entries) as [xfuse|];
    [|split; intros H; inversion H; reflexivity].
  destruct xfuse as [| | | |xentries]; try (split; intros H; inversion H; reflexivity).
  destruct (assoc "version" xentries);
    split; intros H; inversion H; reflexivity.
Qed.

(** A configuration without a recorded version stops [run]: when
    [config["xfuse"]["version"]] raises, because the merged configuration
    has no [xfuse] table ([KeyError] for [xfuse]), that table has no
    [version] ([KeyError] for [version]) or [xfuse] is not a table
    ([TypeError]), the body of the [with] block raises the same error;
    nothing has been logged and the rest of the run is not started. *)
Theorem run_raises_without_recorded_version
    (project_file : File) (save_path : string) (parsed config : Toml) e (w : World) :
  tomlkit_loads (content project_file) = Ok parsed ->
  merge_config parsed = Ok config ->
  xfuse_version config = Raise e ->
  check_version config w = (Raise e, w) /\
  body project_file save_path w = (Raise e, w) /\
  version_error config = Some e /\
  (e = KeyError "xfuse" \/ e = KeyError "version" \/ e = TypeError).
Proof.
  intros Hparse Hmerge Hraise.
  assert (Herr : version_error config = Some e) by (apply xfuse_version_raises; exact Hraise).
  assert (Hcheck : check_version config w = (Raise e, w)).
  { unfold check_version, bind, try. rewrite Hraise. reflexivity. }
  split; [exact Hcheck|]. split; [|split; [exact Herr|]].
  - unfold body, bind, try at 1 2. rewrite Hparse, Hmerge, Hcheck. reflexivity.
  - unfold version_error in Herr.
    destruct config as [| | | |entries]; try (inversion Herr; auto).
    destruct (assoc "xfuse" entries) as [xfuse|]; [|inversion Herr; auto].
    destruct xfuse as [| | | |xentries]; try (inversion Herr; auto).
    destruct (assoc "version" xentries); inversion Herr; auto.
Qed.

(** Checking twice is checking once: the configuration a check returns
    passes a second check unchanged and without a warning. *)
Theorem check_version_twice config config' (w w' : World) :
  check_version config w = (Ok config', w') ->
  check_version config' w' = (Ok config', w').
Proof.
  intros H.
  destruct (xfuse_version config) as [recorded|e] eqn:Hver.
  - destruct (ne_str recorded __version__) eqn:Hne.
    + destruct (xfuse_version_inv _ _ Hver) as (entries & xentries & -> & Hx & Hv).
      rewrite (check_version_mismatch _ _ _ w Hx Hv Hne) in H.
      inversion H; subst. apply check_version_same.
      unfold xfuse_version, getitem. rewrite !assoc_update_same. reflexivity.
    + apply ne_str_false in Hne. subst recorded.
      rewrite check_version_same in H by exact Hver.
      inversion H; subst. apply check_version_same. exact Hver.
  - unfold check_version, bind, try in H. rewrite Hver in H. discriminate H.
Qed.

End Program.

(** *** A small instance *)

(** Four items without setters, the version [0.2.0], collaborators that do
    nothing, and saved sessions in the scalar format. *)
Definition items : list (string * SessionItem (Env unit)) :=
  [("log_level", mkItem (VInt 20) None); ("panic", mkItem VNone None);
   ("save_path", mkItem VNone None); ("log_file", mkItem VNone None)].

Definition no_sessions : session.World (Env unit) :=
  mkWorld ∅ 0 [] [] (mkEnv unit [] tt).

(** The world once the module is imported: [_DEFAULT_SESSION = Session()]. *)
Definition imported : session.World (Env unit) :=
  snd (Session items [] no_sessions).

Definition old_config : Toml :=
  TTable [("xfuse", TTable [("network_depth", TInt 6); ("version", TStr "0.1.0")]);
          ("slides", TTable [])].

Definition project : File := mkFile "project.toml" "[xfuse]".

Definition saved : File := mkFile "session.toml" "save_path = 'earlier'".

Definition saved_document : Document Scalar :=
  [("save_path", SStr "earlier"); ("log_level", SInt 10)].

Definition same_name (p : string) : M (Env unit) string := ret p.

Definition no_model (f : File) (save_path : string) (config : Toml)
    (read : string -> Exn + Value) : M (Env unit) unit := ret tt.

Lemma run_version_mismatch_warns_and_continues_witness :
  let w' := logging unit WARNING
              "Config was created using %s version %s but this is version %s"
              [TStr __package__; TStr "0.1.0"; TStr "0.2.0"] imported in
  exists config',
    check_version unit "0.2.0" old_config imported = (Ok config', w') /\
    xfuse_version config' = Ok (TStr "0.2.0") /\
    (forall k, k <> "xfuse" -> getitem config' k = getitem old_config k) /\
    (forall xfuse xfuse' k,
       getitem old_config "xfuse" = Ok xfuse -> getitem config' "xfuse" = Ok xfuse' ->
       k <> "version" -> getitem xfuse' k = getitem xfuse k) /\
    body unit items "0.2.0" (fun _ => Ok old_config) Ok no_model project "out" imported =
      lift (no_model project "out" config' (effective items w')) w'.
Proof.
  apply (run_version_mismatch_warns_and_continues unit items "0.2.0"
           (fun _ => Ok old_config) Ok no_model project "out"
           old_config old_config (TStr "0.1.0") imported).
  - reflexivity.
  - reflexivity.
  - reflexivity.
  - intros H. discriminate H.
Defined.

Lemma run_fresh_session_wins_witness :
  exists loaded fresh doc log_file,
    [1; 2] = [loaded; fresh] /\
    Some saved_document = Some doc /\
    overrides (snd (enter_contexts unit items [1; 2] []
                      (snd (session_stack unit items same_name Scalar
                              (fun _ => Some saved_document) scalar_decode
                              "out" (Some saved) imported)))) loaded
      = list_to_map (decode_item scalar_decode <$> doc) /\
    overrides (snd (enter_contexts unit items [1; 2] []
                      (snd (session_stack unit items same_name Scalar
                              (fun _ => Some saved_document) scalar_decode
                              "out" (Some saved) imported)))) fresh
      = list_to_map [("save_path", VStr "out"); ("log_file", VStr log_file)] /\
    journal (snd (enter_contexts unit items [1; 2] []
                    (snd (session_stack unit items same_name Scalar
                            (fun _ => Some saved_document) scalar_decode
                            "out" (Some saved) imported))))
      = journal imported ++ [Activated loaded; Activated fresh] /\
    stack (snd (enter_contexts unit items [1; 2] []
                  (snd (session_stack unit items same_name Scalar
                          (fun _ => Some saved_document) scalar_decode
                          "out" (Some saved) imported))))
      = fresh :: loaded :: stack imported /\
    (forall name v,
       overrides (snd (enter_contexts unit items [1; 2] []
                         (snd (session_stack unit items same_name Scalar
                                 (fun _ => Some saved_document) scalar_decode
                                 "out" (Some saved) imported)))) fresh !! name = Some v ->
       effective items
         (snd (enter_contexts unit items [1; 2] []
                 (snd (session_stack unit items same_name Scalar
                         (fun _ => Some saved_document) scalar_decode
                         "out" (Some saved) imported)))) name = inr v).
Proof.
  apply (run_fresh_session_wins unit items same_name Scalar
           (fun _ => Some saved_document) scalar_decode "out" saved imported
           (snd (session_stack unit items same_name Scalar
                   (fun _ => Some saved_document) scalar_decode
                   "out" (Some saved) imported))
           (snd (enter_contexts unit items [1; 2] []
                   (snd (session_stack unit items same_name Scalar
                           (fun _ => Some saved_document) scalar_decode
                           "out" (Some saved) imported))))
           [1; 2] [2; 1]).
  - vm_compute. reflexivity.
  - vm_compute. reflexivity.
Defined.

(** Against C2: the constructor has returned [_DEFAULT_SESSION] without
    overrides; [cli] with [--debug] then returns, and the session overrides
    [log_level] and [panic]. *)
Lemma cli_debug_changes_default_session :
  Session items [] no_sessions = (Ok _DEFAULT_SESSION, imported) /\
  overrides imported _DEFAULT_SESSION = ∅ /\
  fst (cli unit true imported) = Ok tt /\
  overrides (snd (cli unit true imported)) _DEFAULT_SESSION !! "log_level"
    = Some (VInt (-999)) /\
  overrides (snd (cli unit true imported)) _DEFAULT_SESSION !! "panic"
    = Some (VCallable 1) /\
  overrides (snd (cli unit true imported)) _DEFAULT_SESSION
    <> overrides imported _DEFAULT_SESSION.
Proof.
  assert (H0 : overrides imported _DEFAULT_SESSION = ∅) by reflexivity.
  assert (H1 : overrides (snd (cli unit true imported)) _DEFAULT_SESSION !! "log_level"
               = Some (VInt (-999))) by (vm_compute; reflexivity).
  split; [reflexivity|]. split; [exact H0|]. split; [reflexivity|].
  split; [exact H1|]. split; [vm_compute; reflexivity|].
  intros H. rewrite H, H0 in H1. rewrite lookup_empty in H1. discriminate H1.
Qed.


(** *** Slide paths: [_expand_path] (lines 193 to 197 of [run]) *)

(** [p[:p.find("/")]] and [p[p.find("/"):]], the whole of [p] and the empty
    string when there is no separator. *)
Fixpoint upto_sep (p : string) : string :=
  match p with
  | EmptyString => EmptyString
  | String c r => if posixpath.is_sep c then EmptyString else String c (upto_sep r)
  end.

Fixpoint from_sep (p : string) : string :=
  match p with
  | EmptyString => EmptyString
  | String c r => if posixpath.is_sep c then p else from_sep r
  end.

Section Paths.

(** The home directories [os.path.expanduser] looks up: the current
    user's for [None] (the variable [HOME], else the password database),
    a named user's otherwise; no answer when there is no entry. *)
Variable home_of : option string -> option string.

(** [os.path.expanduser] *)
Definition expanduser (path : string) : string :=
  match path with
  | String c rest =>
      if bool_decide (c = "~"%char) then
        let user := upto_sep rest in
        match home_of (if bool_decide (user = EmptyString) then None else Some user) with
        | None => path
        | Some userhome =>
            let expanded := posixpath.rstrip_sep userhome +:+ from_sep rest in
            if bool_decide (expanded = EmptyString) then "/" else expanded
        end
      else path
  | EmptyString => path
  end.

(** [_expand_path], the function [run] defines for the names of the
    slides. *)
Definition _expand_path (project_file : File) (path : string) : string :=
  let path := expanduser path in
  if posixpath.isabs path then path
  else posixpath.join (posixpath.dirname (name project_file)) path.

Lemma isabs_inv p : posixpath.isabs p = true -> exists r, p = String "/" r.
Proof.
  destruct p as [|c r]; [discriminate|]. simpl. unfold posixpath.is_sep.
  intros H. apply bool_decide_eq_true_1 in H. subst c. eauto.
Qed.

Lemma expanduser_isabs p : posixpath.isabs p = true -> expanduser p = p.
Proof. intros H. destruct (isabs_inv p H) as [r ->]. reflexivity. Qed.

Lemma rstrip_sep_empty r :
  posixpath.rstrip_sep r = EmptyString -> posixpath.all_sep r = true.
Proof.
  induction r as [|c r IH]; [reflexivity|]. simpl.
  destruct (posixpath.rstrip_sep r) eqn:Hr; [|discriminate].
  destruct (posixpath.is_sep c); [|discriminate].
  intros _. simpl. apply IH. reflexivity.
Qed.

Lemma isabs_dirname p :
  posixpath.isabs p = true -> posixpath.isabs (posixpath.dirname p) = true.
Proof.
  intros H. destruct (isabs_inv p H) as [r ->].
  assert (Hh : exists h, posixpath.upto_last_sep (String "/" r) = String "/" h).
  { simpl. destruct (posixpath.upto_last_sep r); eauto. }
  destruct Hh as [h Hh].
  unfold posixpath.dirname, posixpath.split. cbn [fst]. rewrite Hh.
  destruct (posixpath.all_sep (String "/" h)) eqn:Hall; [reflexivity|].
  simpl. destruct (posixpath.rstrip_sep h) eqn:Hr; [|reflexivity].
  apply rstrip_sep_empty in Hr. simpl in Hall. rewrite Hr in Hall. discriminate Hall.
Qed.

Lemma isabs_join a b :
  posixpath.isabs a = true -> posixpath.isabs (posixpath.join a b) = true.
Proof.
  intros H. destruct (isabs_inv a H) as [r ->]. unfold posixpath.join.
  destruct (posixpath.isabs b) eqn:Hb; [exact Hb|].
  destruct (_ || _); reflexivity.
Qed.

(** A project file given by an absolute name makes every slide path
    absolute, and expanding a path twice is expanding it once. *)
Theorem expand_path_absolute (project_file : File) (path : string) :
  posixpath.isabs (name project_file) = true ->
  posixpath.isabs (_expand_path project_file path) = true /\
  _expand_path project_file (_expand_path project_file path)
    = _expand_path project_file path.
Proof.
  intros Habs.
  assert (H1 : posixpath.isabs (_expand_path project_file path) = true).
  { unfold _expand_path.
    destruct (posixpath.isabs (expanduser path)) eqn:He; [exact He|].
    apply isabs_join, isabs_dirname, Habs. }
  split; [exact H1|].
  unfold _expand_path at 1. rewrite (expanduser_isabs _ H1), H1. reflexivity.
Qed.

(** When the project file is named without a directory, a slide path is
    tilde-expanded and otherwise left as it is: relative paths stay
    relative to the working directory. *)
Theorem expand_path_project_without_directory (project_file : File) (path : string) :
  posixpath.upto_last_sep (name project_file) = EmptyString ->
  _expand_path project_file path = expanduser path.
Proof.
  intros Hn. unfold _expand_path.
  destruct (posixpath.isabs (expanduser path)) eqn:He; [reflexivity|].
  unfold posixpath.dirname, posixpath.split. rewrite Hn. simpl.
  unfold posixpath.join. rewrite He. reflexivity.
Qed.

(** A path that does not start with a tilde is not expanded. *)
Lemma expanduser_no_tilde c r : c <> "~"%char -> expanduser (String c r) = String c r.
Proof. intros H. simpl. rewrite bool_decide_eq_false_2 by exact H. reflexivity. Qed.

End Paths.


(** *** The slides of the configuration (lines 199 to 212 of [run]) *)

Definition and_then {A B} (r : Result A) (k : A -> Result B) : Result B :=
  match r with
  | Ok a => k a
  | Raise e => Raise e
  end.

(** [d.items()]; only a table has the method ([AttributeError]). *)
Definition items_of (d : Toml) : Result (list (string * Toml)) :=
  match d with
  | TTable entries => Ok entries
  | _ => Raise (OtherError "AttributeError")
  end.

(** [{k: v for k, v in pairs}]: the pairs are inserted one after the
    other, a key that comes again keeps its place and takes the new
    value. *)
Definition dict_of {A} (pairs : list (string * A)) : list (string * A) :=
  fold_left (fun acc kv => update (fst kv) (snd kv) acc) pairs [].

Section Slides.

Variable home_of : option string -> option string.

(** Lines 199 to 202: [config["slides"] = {_expand_path(filename): v for
    filename, v in config["slides"].items()}]. *)
Definition expand_slides (project_file : File) (config : Toml) : Result Toml :=
  and_then (getitem config "slides") (fun slides =>
  and_then (items_of slides) (fun entries =>
  setitem config "slides"
    (TTable (dict_of (map (fun kv => (_expand_path home_of project_file (fst kv), snd kv))
                          entries))))).

End Slides.

Lemma assoc_app {A} k (a b : list (string * A)) :
  assoc k (a ++ b) = match assoc k a with Some v => Some v | None => assoc k b end.
Proof.
  induction a as [|[k' v'] a IH]; simpl; [reflexivity|].
  case_bool_decide; [reflexivity|exact IH].
Qed.

Lemma assoc_update {A} k k' (v : A) l :
  assoc k' (update k v l) = if bool_decide (k = k') then Some v else assoc k' l.
Proof.
  case_bool_decide as H.
  - subst. apply assoc_update_same.
  - apply assoc_update_other. congruence.
Qed.

Lemma fold_update_lookup {A} k (l : list (string * A)) : forall acc,
  assoc k (fold_left (fun acc kv => update (fst kv) (snd kv) acc) l acc)
    = match assoc k (reverse l) with Some v => Some v | None => assoc k acc end.
Proof.
  induction l as [|[k' v'] l IH]; intros acc; simpl; [reflexivity|].
  rewrite IH, reverse_cons, assoc_app, assoc_update. simpl.
  destruct (assoc k (reverse l)); [reflexivity|].
  case_bool_decide; reflexivity.
Qed.

Lemma assoc_None_keys {A} k (l : list (string * A)) :
  assoc k l = None <-> ~ In k (map fst l).
Proof.
  induction l as [|[k' v'] l IH]; simpl; [tauto|].
  case_bool_decide as H.
  - split; [discriminate|]. intros Hn. exfalso. apply Hn. left. exact H.
  - rewrite IH. split; [intros Hn [?|?]; [congruence|tauto]|tauto].
Qed.

Lemma update_fresh {A} k (v : A) l :
  ~ In k (map fst l) -> update k v l = l ++ [(k, v)].
Proof.
  induction l as [|[k' v'] l IH]; simpl; intros Hn; [reflexivity|].
  rewrite bool_decide_eq_false_2 by tauto.
  rewrite IH by tauto. reflexivity.
Qed.

Lemma fold_update_distinct {A} (l : list (string * A)) : forall acc,
  List.NoDup (map fst (acc ++ l)) ->
  fold_left (fun acc kv => update (fst kv) (snd kv) acc) l acc = acc ++ l.
Proof.
  induction l as [|[k v] l IH]; intros acc Hnd; simpl.
  - rewrite app_nil_r. reflexivity.
  - rewrite update_fresh.
    + rewrite IH; rewrite <- app_assoc; [reflexivity|exact Hnd].
    + rewrite map_app in Hnd. simpl in Hnd.
      apply List.NoDup_remove_2 in Hnd. intros Hin. apply Hnd.
      apply in_or_app. left. exact Hin.
Qed.

(** A dictionary built from pairs answers a key with the value of the last
    pair that has it, holds no more entries than there are pairs, and is
    the list of pairs itself when no key comes twice. *)
Lemma dict_of_spec {A} (pairs : list (string * A)) :
  (forall k, assoc k (dict_of pairs) = assoc k (reverse pairs)) /\
  (List.NoDup (map fst pairs) -> dict_of pairs = pairs).
Proof.
  split.
  - intros k. unfold dict_of. rewrite fold_update_lookup.
    destruct (assoc k (reverse pairs)); reflexivity.
  - intros Hnd. unfold dict_of. rewrite fold_update_distinct; [reflexivity|exact Hnd].
Qed.

Section SlidesFacts.

Variable home_of : option string -> option string.

(** The slide names of a configuration are replaced by their expanded
    paths and nothing else changes: the other entries of the configuration
    stay, and a path is answered with the settings of the last slide that
    expands to it.  When no two slides expand to the same path, the slides
    keep their order and their settings. *)
Theorem run_expands_slide_names (project_file : File) (config : Toml)
    (entries : list (string * Toml)) :
  getitem config "slides" = Ok (TTable entries) ->
  let expanded :=
    map (fun kv => (_expand_path home_of project_file (fst kv), snd kv)) entries in
  exists config' slides',
    expand_slides home_of project_file config = Ok config' /\
    getitem config' "slides" = Ok (TTable slides') /\
    (forall k, k <> "slides" -> getitem config' k = getitem config k) /\
    (forall path, assoc path slides' = assoc path (reverse expanded)) /\
    (List.NoDup (map fst expanded) -> slides' = expanded).
Proof.
  intros Hs expanded.
  destruct config as [| | | |centries]; try discriminate Hs.
  exists (TTable (update "slides" (TTable (dict_of expanded)) centries)),
         (dict_of expanded).
  split.
  { unfold expand_slides. rewrite Hs. reflexivity. }
  split.
  { unfold getitem. rewrite assoc_update_same. reflexivity. }
  split.
  { intros k Hk. unfold getitem. rewrite assoc_update_other by exact Hk. reflexivity. }
  apply dict_of_spec.
Qed.

(** Without slides in the configuration, or with something that is not a
    table under [slides], the expansion raises. *)
Lemma expand_slides_raises (project_file : File) (config : Toml) :
  (forall e, getitem config "slides" = Raise e ->
             expand_slides home_of project_file config = Raise e) /\
  (forall slides, getitem config "slides" = Ok slides ->
                  (forall entries, slides <> TTable entries) ->
                  expand_slides home_of project_file config
                    = Raise (OtherError "AttributeError")).
Proof.
  split.
  - intros e H. unfold expand_slides. rewrite H. reflexivity.
  - intros slides H Hn. unfold expand_slides. rewrite H. simpl.
    destruct slides; try reflexivity. exfalso. eapply Hn. reflexivity.
Qed.

End SlidesFacts.

(** *** Options and design of the slides (lines 203 to 212) *)

(** ["options" in slide]: a key of a table, a substring of a string, an
    element of an array; a number or a truth value cannot be searched. *)
Definition has_options (slide : Toml) : Result bool :=
  match slide with
  | TTable entries =>
      Ok (match assoc "options" entries with Some _ => true | None => false end)
  | TStr s =>
      Ok (match String.index 0 "options" s with Some _ => true | None => false end)
  | TArray elements =>
      Ok (existsb (fun x => match x with
                            | TStr s => String.eqb s "options"
                            | _ => false
                            end) elements)
  | TInt _ | TBool _ => Raise TypeError
  end.

(** [slide["options"] if "options" in slide else {}] *)
Definition options_of (slide : Toml) : Result Toml :=
  and_then (has_options slide) (fun present =>
  if present then getitem slide "options" else Ok (TTable [])).

(** [{k: v for k, v in slide.items() if k != "options"}] *)
Definition without_options (slide : Toml) : Result Toml :=
  and_then (items_of slide) (fun entries =>
  Ok (TTable (dict_of (filter (fun kv => fst kv <> "options") entries)))).

(** [{filename: f(slide) for filename, slide in slides.items()}]: the
    slides in order, up to the first on which [f] raises. *)
Fixpoint for_each_slide (f : Toml -> Result Toml) (slides : list (string * Toml))
  : Result (list (string * Toml)) :=
  match slides with
  | [] => Ok []
  | (filename, slide) :: rest =>
      and_then (f slide) (fun v =>
      and_then (for_each_slide f rest) (fun rest' =>
      Ok ((filename, v) :: rest')))
  end.

(** Lines 203 to 212: [slide_options], then the argument of
    [design_matrix_from]. *)
Definition slide_options (config : Toml) : Result (list (string * Toml)) :=
  and_then (getitem config "slides") (fun slides =>
  and_then (items_of slides) (fun entries =>
  and_then (for_each_slide options_of entries) (fun result =>
  Ok (dict_of result)))).

Definition design_input (config : Toml) : Result (list (string * Toml)) :=
  and_then (getitem config "slides") (fun slides =>
  and_then (items_of slides) (fun entries =>
  and_then (for_each_slide without_options entries) (fun result =>
  Ok (dict_of result)))).

Definition options_and_design (config : Toml)
  : Result (list (string * Toml) * list (string * Toml)) :=
  and_then (slide_options config) (fun options =>
  and_then (design_input config) (fun design =>
  Ok (options, design))).


(** A slide as the configuration file gives it: a table, no key twice. *)
Definition slide_table (slide : Toml) : Prop :=
  exists entries, slide = TTable entries /\ List.NoDup (map fst entries).

Definition options_entry (slide : Toml) : Toml :=
  match slide with
  | TTable entries =>
      match assoc "options" entries with
      | Some options => options
      | None => TTable []
      end
  | _ => TTable []
  end.

Definition other_entries (slide : Toml) : Toml :=
  match slide with
  | TTable entries => TTable (filter (fun kv => fst kv <> "options") entries)
  | _ => slide
  end.

Lemma filter_keys_NoDup {A} (P : string * A -> Prop) `{forall x, Decision (P x)}
    (l : list (string * A)) :
  List.NoDup (map fst l) -> List.NoDup (map fst (filter P l)).
Proof.
  induction l as [|x l IH]; intros Hnd; [constructor|].
  inversion Hnd as [|? ? Hx Hl]; subst.
  rewrite filter_cons. destruct (decide (P x)); [|auto].
  simpl. constructor; [|auto].
  intros Hin. apply Hx. apply in_map_iff in Hin. destruct Hin as (y & Hy & Hin).
  apply in_map_iff. exists y. split; [exact Hy|].
  apply list_elem_of_In. apply list_elem_of_In in Hin.
  apply list_elem_of_filter in Hin. tauto.
Qed.

Lemma options_of_table slide : slide_table slide -> options_of slide = Ok (options_entry slide).
Proof.
  intros (entries & -> & _). unfold options_of, has_options, options_entry. simpl.
  destruct (assoc "options" entries) eqn:H; simpl; rewrite ?H; reflexivity.
Qed.

Lemma without_options_table slide :
  slide_table slide -> without_options slide = Ok (other_entries slide).
Proof.
  intros (entries & -> & Hnd). unfold without_options, other_entries. simpl.
  destruct (dict_of_spec (filter (fun kv => fst kv <> "options") entries)) as [_ Hd].
  rewrite Hd; [reflexivity|]. apply filter_keys_NoDup. exact Hnd.
Qed.

Lemma for_each_slide_tables (f : Toml -> Result Toml) (g : Toml -> Toml) slides :
  (forall slide, slide_table slide -> f slide = Ok (g slide)) ->
  Forall (fun kv => slide_table (snd kv)) slides ->
  for_each_slide f slides = Ok (map (fun kv => (fst kv, g (snd kv))) slides).
Proof.
  intros Hf Hall. induction Hall as [|[filename slide] rest Hs _ IH]; [reflexivity|].
  simpl. rewrite (Hf slide Hs). simpl. rewrite IH. reflexivity.
Qed.

Lemma assoc_In {A} k (v : A) l :
  List.NoDup (map fst l) -> In (k, v) l -> assoc k l = Some v.
Proof.
  induction l as [|[k' v'] l IH]; intros Hnd Hin; [contradiction|].
  inversion Hnd as [|? ? Hk Hl]; subst. simpl.
  destruct Hin as [Heq|Hin].
  - inversion Heq; subst. rewrite bool_decide_eq_true_2; reflexivity.
  - case_bool_decide as Hkk.
    + subst k'. exfalso. apply Hk. apply in_map_iff. exists (k, v). auto.
    + apply IH; assumption.
Qed.

Lemma assoc_map_values {A B} (g : A -> B) k (l : list (string * A)) :
  assoc k (map (fun kv => (fst kv, g (snd kv))) l) = g <$> assoc k l.
Proof.
  induction l as [|[k' v'] l IH]; [reflexivity|]. simpl.
  case_bool_decide; [reflexivity|exact IH].
Qed.

Lemma assoc_filter_other {A} k k0 (l : list (string * A)) :
  k <> k0 -> assoc k (filter (fun kv => fst kv <> k0) l) = assoc k l.
Proof.
  intros Hk. induction l as [|[k' v'] l IH]; [reflexivity|].
  rewrite filter_cons. simpl. destruct (decide (k' <> k0)) as [Hd|Hd]; simpl.
  - case_bool_decide; [reflexivity|exact IH].
  - rewrite bool_decide_eq_false_2; [exact IH|]. intros ->. apply Hd. exact Hk.
Qed.

Lemma assoc_filter_same {A} k0 (l : list (string * A)) :
  assoc k0 (filter (fun kv => fst kv <> k0) l) = None.
Proof.
  induction l as [|[k' v'] l IH]; [reflexivity|].
  rewrite filter_cons. simpl. destruct (decide (k' <> k0)) as [Hd|Hd]; simpl; [|exact IH].
  rewrite bool_decide_eq_false_2 by exact Hd. exact IH.
Qed.

(** When every slide is a table, the slides are split without loss: under
    each slide's name [slide_options] has the slide's [options] entry, or an
    empty table when there is none, and the argument of
    [design_matrix_from] has a table with all the other entries of the
    slide and no [options]; both keep the slides in their order. *)
Theorem slides_split_into_options_and_design (config : Toml)
    (slides : list (string * Toml)) :
  getitem config "slides" = Ok (TTable slides) ->
  List.NoDup (map fst slides) ->
  Forall (fun kv => slide_table (snd kv)) slides ->
  exists options design,
    options_and_design config = Ok (options, design) /\
    map fst options = map fst slides /\
    map fst design = map fst slides /\
    (forall filename entries,
       In (filename, TTable entries) slides ->
       assoc filename options
         = Some (match assoc "options" entries with
                 | Some o => o
                 | None => TTable []
                 end) /\
       exists rest,
         assoc filename design = Some (TTable rest) /\
         assoc "options" rest = None /\
         (forall k, k <> "options" -> assoc k rest = assoc k entries)).
Proof.
  intros Hs Hnd Hall.
  set (options := map (fun kv => (fst kv, options_entry (snd kv))) slides).
  set (design := map (fun kv => (fst kv, other_entries (snd kv))) slides).
  assert (Hko : map fst options = map fst slides).
  { unfold options. rewrite map_map. reflexivity. }
  assert (Hkd : map fst design = map fst slides).
  { unfold design. rewrite map_map. reflexivity. }
  exists options, design. split.
  { unfold options_and_design, slide_options, design_input. rewrite Hs. simpl.
    rewrite (for_each_slide_tables options_of options_entry slides options_of_table Hall).
    rewrite (for_each_slide_tables without_options other_entries slides
               without_options_table Hall).
    simpl. fold options design.
    destruct (dict_of_spec options) as [_ Ho].
    destruct (dict_of_spec design) as [_ Hd].
    rewrite Ho, Hd by congruence. reflexivity. }
  split; [exact Hko|]. split; [exact Hkd|].
  intros filename entries Hin.
  pose proof (assoc_In _ _ _ Hnd Hin) as Ha.
  split.
  - unfold options. rewrite assoc_map_values, Ha. reflexivity.
  - exists (filter (fun kv => fst kv <> "options") entries).
    split; [unfold design; rewrite assoc_map_values, Ha; reflexivity|].
    split; [apply assoc_filter_same|].
    intros k Hk. apply assoc_filter_other. exact Hk.
Qed.

Lemma options_of_error slide e : options_of slide = Raise e -> e = TypeError.
Proof.
  unfold options_of, has_options.
  destruct slide as [s|z|b|elements|entries]; simpl.
  - destruct (String.index 0 "options" s); simpl; intros H; inversion H; reflexivity.
  - intros H; inversion H; reflexivity.
  - intros H; inversion H; reflexivity.
  - destruct (existsb _ elements); simpl; intros H; inversion H; reflexivity.
  - destruct (assoc "options" entries) eqn:Ho; simpl; rewrite ?Ho; discriminate.
Qed.

Lemma for_each_options_error slides e :
  for_each_slide options_of slides = Raise e -> e = TypeError.
Proof.
  induction slides as [|[filename slide] rest IH]; simpl; [discriminate|].
  destruct (options_of slide) as [v|e'] eqn:Ho; simpl.
  - destruct (for_each_slide options_of rest) as [rest'|e'']; simpl; [discriminate|].
    intros H. inversion H; subst. apply IH. reflexivity.
  - intros H. inversion H; subst. exact (options_of_error _ _ Ho).
Qed.

Lemma for_each_without_options_raises slides :
  Exists (fun kv => forall entries, snd kv <> TTable entries) slides ->
  for_each_slide without_options slides = Raise (OtherError "AttributeError").
Proof.
  induction slides as [|[filename slide] rest IH]; intros Hex;
    [inversion Hex|].
  simpl. destruct slide as [s|z|b|elements|entries]; try reflexivity.
  unfold without_options at 1. simpl.
  rewrite IH; [reflexivity|].
  inversion Hex as [? ? Hhead|? ? Htail]; subst; [|exact Htail].
  exfalso. eapply Hhead. reflexivity.
Qed.

(** A slide that is not a table does not get through: the split raises,
    [TypeError] from the look for its options or [AttributeError] from the
    look for its other entries. *)
Theorem slide_that_is_no_table_raises (config : Toml) (slides : list (string * Toml)) :
  getitem config "slides" = Ok (TTable slides) ->
  Exists (fun kv => forall entries, snd kv <> TTable entries) slides ->
  exists e,
    options_and_design config = Raise e /\
    (e = TypeError \/ e = OtherError "AttributeError").
Proof.
  intros Hs Hex.
  unfold options_and_design, slide_options, design_input. rewrite Hs. simpl.
  destruct (for_each_slide options_of slides) as [options|e] eqn:Ho; simpl.
  - rewrite (for_each_without_options_raises _ Hex). simpl. eauto.
  - exists e. split; [reflexivity|]. left. exact (for_each_options_error _ _ Ho).
Qed.


(** *** [init] (lines 128 to 134) *)

(** [open(p, "w")] as far as the file system goes: the file is created if
    it is missing and emptied if it is there; the answer is the place of
    the file. *)
Definition open_w (p : string) (fs : os.FileSystem)
  : Exn + (list string * os.FileSystem) :=
  match os.resolve fs p with
  | inl e => inl e
  | inr k =>
      match os.node_at fs k with
      | Some os.Dir => inl IsADirectoryError
      | Some (os.File _) =>
          if posixpath.endswith_sep p then inl NotADirectoryError
          else inr (k, os.put k (os.File EmptyString) fs)
      | None =>
          if posixpath.endswith_sep p then inl IsADirectoryError
          else inr (k, os.put k (os.File EmptyString) fs)
      end
  end.

Lemma walk_put fs k n names : forall cur k',
  os.node_at fs k <> Some os.Dir ->
  os.walk fs cur names = inr k' ->
  os.walk (os.put k n fs) cur names = inr k'.
Proof.
  induction names as [|c names IH]; intros cur k' Hk Hw; simpl in *; [exact Hw|].
  destruct (os.node_at fs cur) as [[|d]|] eqn:Hc; try discriminate Hw.
  rewrite os.node_at_put_other by (intros ->; congruence).
  rewrite Hc. apply IH; assumption.
Qed.

Lemma resolve_put fs k n p k' :
  os.node_at fs k <> Some os.Dir ->
  os.resolve fs p = inr k' -> os.resolve (os.put k n fs) p = inr k'.
Proof.
  unfold os.resolve. case_bool_decide; [discriminate|].
  intros Hk Hw. apply walk_put; assumption.
Qed.

Lemma node_at_put k n fs : k <> [] -> os.node_at (os.put k n fs) k = Some n.
Proof.
  intros Hk. destruct k as [|c k]; [contradiction|]. simpl. apply lookup_insert_eq.
Qed.

Lemma open_w_inv p fs k fs1 :
  open_w p fs = inr (k, fs1) ->
  os.resolve fs p = inr k /\ os.node_at fs k <> Some os.Dir /\ k <> [] /\
  fs1 = os.put k (os.File EmptyString) fs.
Proof.
  unfold open_w. destruct (os.resolve fs p) as [e|k0] eqn:Hr; [discriminate|].
  destruct (os.node_at fs k0) as [[|d]|] eqn:Hn; try discriminate;
    destruct (posixpath.endswith_sep p); try discriminate;
    intros H; inversion H; subst;
    (repeat split; [congruence|intros ->; simpl in Hn; congruence]).
Qed.




Section Init.

(** The template [construct_default_config_toml()] returns, and
    [config.as_string()]. *)
Variable construct_default_config_toml : Toml.
Variable as_string : Toml -> string.

(** Lines 130 to 132. *)
Definition init_config (slides : list string) : Result Toml :=
  if bool_decide (0 < length slides) then
    setitem construct_default_config_toml "slides"
            (TTable (dict_of (map (fun slide => (slide, TTable [])) slides)))
  else Ok construct_default_config_toml.

(** The function [init] as written, before [_init] decorates it. *)
Definition init (target : string) (slides : list string) : M os.FileSystem unit :=
  fun fs =>
    match init_config slides with
    | Raise e => (Raise e, fs)
    | Ok config =>
        match open_w target fs with
        | inl e => (Raise e, fs)
        | inr (k, fs1) => (Ok tt, os.put k (os.File (as_string config)) fs1)
        end
    end.


(** When [init] returns, the target holds the text of the configuration
    and nothing of what it held before; no other file or directory has
    changed, and the working directory is the same. *)
Theorem init_overwrites_target (target : string) (slides : list string)
    (fs : os.FileSystem) :
  fst (init target slides fs) = Ok tt ->
  exists config k,
    init_config slides = Ok config /\
    os.resolve fs target = inr k /\
    os.read_file (snd (init target slides fs)) target = Some (as_string config) /\
    (forall k', k' <> k ->
       os.node_at (snd (init target slides fs)) k' = os.node_at fs k') /\
    os.cwd (snd (init target slides fs)) = os.cwd fs.
Proof.
  unfold init.
  destruct (init_config slides) as [config|e]; [|discriminate].
  destruct (open_w target fs) as [e|[k fs1]] eqn:Ho; [discriminate|].
  intros _. simpl.
  destruct (open_w_inv _ _ _ _ Ho) as (Hr & Hn & Hk & ->).
  exists config, k. split; [reflexivity|]. split; [exact Hr|].
  split.
  { unfold os.read_file.
    rewrite (resolve_put _ k _ target k).
    - rewrite node_at_put by exact Hk. reflexivity.
    - rewrite node_at_put by exact Hk. discriminate.
    - apply resolve_put; assumption. }
  split; [|reflexivity].
  intros k' Hk'. rewrite !os.node_at_put_other by congruence. reflexivity.
Qed.

Lemma init_config_returns (slides : list string) (entries : list (string * Toml)) :
  construct_default_config_toml = TTable entries ->
  exists config, init_config slides = Ok config.
Proof.
  intros Hd. unfold init_config. rewrite Hd.
  destruct (bool_decide _); simpl; eauto.
Qed.

(** A target that is a directory makes [init] raise [IsADirectoryError],
    and a target in a directory that does not exist [FileNotFoundError];
    the files are left as they were. *)
Theorem init_raises_on_unwritable_target (target : string) (slides : list string)
    (fs : os.FileSystem) (entries : list (string * Toml)) :
  construct_default_config_toml = TTable entries ->
  (os.isdir fs target = true ->
   init target slides fs = (Raise IsADirectoryError, fs)) /\
  (os.resolve fs target = inl FileNotFoundError ->
   init target slides fs = (Raise FileNotFoundError, fs)).
Proof.
  intros Hd. destruct (init_config_returns slides entries Hd) as [config Hc].
  unfold init, os.isdir, open_w. rewrite Hc. split.
  - destruct (os.resolve fs target) as [e'|k]; [discriminate|].
    destruct (os.node_at fs k) as [[|d]|]; try discriminate. reflexivity.
  - intros ->. reflexivity.
Qed.

End Init.


(** *** The small instance, continued *)

Definition no_version_config : Toml :=
  TTable [("xfuse", TTable [("network_depth", TInt 6)]); ("slides", TTable [])].

Definition current_config : Toml :=
  TTable [("xfuse", TTable [("network_depth", TInt 6); ("version", TStr "0.2.0")]);
          ("slides", TTable [])].

Lemma check_version_warns_iff_mismatch_witness :
  (TStr "0.1.0" = TStr "0.2.0" ->
   check_version unit "0.2.0" old_config imported = (Ok old_config, imported)) /\
  (log_calls unit (ext (snd (check_version unit "0.2.0" old_config imported)))
     = log_calls unit (ext imported)
   <-> TStr "0.1.0" = TStr "0.2.0").
Proof.
  apply (check_version_warns_iff_mismatch unit "0.2.0" old_config (TStr "0.1.0") imported).
  reflexivity.
Defined.

Lemma run_raises_without_recorded_version_witness :
  check_version unit "0.2.0" no_version_config imported
    = (Raise (KeyError "version"), imported) /\
  body unit items "0.2.0" (fun _ => Ok no_version_config) Ok no_model project "out" imported
    = (Raise (KeyError "version"), imported) /\
  version_error no_version_config = Some (KeyError "version") /\
  (KeyError "version" = KeyError "xfuse" \/ KeyError "version" = KeyError "version" \/
   KeyError "version" = TypeError).
Proof.
  apply (run_raises_without_recorded_version unit items "0.2.0"
           (fun _ => Ok no_version_config) Ok no_model project "out"
           no_version_config no_version_config (KeyError "version") imported).
  - reflexivity.
  - reflexivity.
  - reflexivity.
Defined.

Lemma check_version_twice_witness :
  check_version unit "0.2.0" current_config
    (logging unit WARNING
       "Config was created using %s version %s but this is version %s"
       [TStr __package__; TStr "0.1.0"; TStr "0.2.0"] imported)
  = (Ok current_config,
     logging unit WARNING
       "Config was created using %s version %s but this is version %s"
       [TStr __package__; TStr "0.1.0"; TStr "0.2.0"] imported).
Proof.
  apply (check_version_twice unit "0.2.0" old_config current_config imported).
  reflexivity.
Defined.

(** One user, whose home is [/home/u]. *)
Definition one_home (user : option string) : option string :=
  match user with
  | None => Some "/home/u"
  | Some _ => None
  end.

Definition absolute_project : File := mkFile "/data/study/project.toml" "".

Lemma expand_path_absolute_witness :
  posixpath.isabs (_expand_path one_home absolute_project "slides/a.h5") = true /\
  _expand_path one_home absolute_project
      (_expand_path one_home absolute_project "slides/a.h5")
    = _expand_path one_home absolute_project "slides/a.h5".
Proof.
  apply (expand_path_absolute one_home absolute_project "slides/a.h5").
  reflexivity.
Defined.

Lemma expand_path_project_without_directory_witness :
  _expand_path one_home project "~/slides/a.h5" = expanduser one_home "~/slides/a.h5".
Proof.
  apply (expand_path_project_without_directory one_home project "~/slides/a.h5").
  reflexivity.
Defined.

Definition slides_config : Toml :=
  TTable [("xfuse", TTable [("version", TStr "0.2.0")]);
          ("slides",
           TTable [("a.h5", TTable [("genes", TInt 3); ("options", TTable [("min_counts", TInt 1)])]);
                   ("~/b.h5", TTable [("genes", TInt 5)])])].

Definition slides_entries : list (string * Toml) :=
  [("a.h5", TTable [("genes", TInt 3); ("options", TTable [("min_counts", TInt 1)])]);
   ("~/b.h5", TTable [("genes", TInt 5)])].

Lemma run_expands_slide_names_witness :
  let expanded :=
    map (fun kv => (_expand_path one_home absolute_project (fst kv), snd kv))
        slides_entries in
  exists config' slides',
    expand_slides one_home absolute_project slides_config = Ok config' /\
    getitem config' "slides" = Ok (TTable slides') /\
    (forall k, k <> "slides" -> getitem config' k = getitem slides_config k) /\
    (forall path, assoc path slides' = assoc path (reverse expanded)) /\
    (List.NoDup (map fst expanded) -> slides' = expanded).
Proof.
  apply (run_expands_slide_names one_home absolute_project slides_config slides_entries).
  reflexivity.
Defined.

Ltac distinct_keys :=
  repeat (constructor; [simpl; intuition discriminate|]); constructor.

Lemma slides_split_into_options_and_design_witness :
  exists options design,
    options_and_design slides_config = Ok (options, design) /\
    map fst options = map fst slides_entries /\
    map fst design = map fst slides_entries /\
    (forall filename entries,
       In (filename, TTable entries) slides_entries ->
       assoc filename options
         = Some (match assoc "options" entries with
                 | Some o => o
                 | None => TTable []
                 end) /\
       exists rest,
         assoc filename design = Some (TTable rest) /\
         assoc "options" rest = None /\
         (forall k, k <> "options" -> assoc k rest = assoc k entries)).
Proof.
  apply (slides_split_into_options_and_design slides_config slides_entries).
  - reflexivity.
  - distinct_keys.
  - repeat constructor; eexists; (split; [reflexivity|distinct_keys]).
Defined.

Definition bad_slides_config : Toml :=
  TTable [("slides", TTable [("a.h5", TTable [("genes", TInt 3)]);
                             ("b.h5", TStr "no options")])].

Lemma slide_that_is_no_table_raises_witness :
  exists e,
    options_and_design bad_slides_config = Raise e /\
    (e = TypeError \/ e = OtherError "AttributeError").
Proof.
  apply (slide_that_is_no_table_raises bad_slides_config
           [("a.h5", TTable [("genes", TInt 3)]); ("b.h5", TStr "no options")]).
  - reflexivity.
  - apply Exists_cons_tl, Exists_cons_hd. simpl. intros entries H. discriminate H.
Defined.

(** A template, and a rendering that tells configurations with different
    slides apart. *)
Definition template : Toml :=
  TTable [("xfuse", TTable [("version", TStr "0.2.0")]); ("slides", TTable [])].

Definition render (config : Toml) : string :=
  match getitem config "slides" with
  | Ok (TTable slides) => String.concat "," (map fst slides)
  | _ => EmptyString
  end.


Lemma init_overwrites_target_witness :
  exists config k,
    init_config template ["a.h5"; "b.h5"] = Ok config /\
    os.resolve log_file.example_files "old.log" = inr k /\
    os.read_file (snd (init template render "old.log" ["a.h5"; "b.h5"]
                            log_file.example_files)) "old.log"
      = Some (render config) /\
    (forall k', k' <> k ->
       os.node_at (snd (init template render "old.log" ["a.h5"; "b.h5"]
                             log_file.example_files)) k'
         = os.node_at log_file.example_files k') /\
    os.cwd (snd (init template render "old.log" ["a.h5"; "b.h5"]
                      log_file.example_files))
      = os.cwd log_file.example_files.
Proof.
  apply (init_overwrites_target template render "old.log" ["a.h5"; "b.h5"]
           log_file.example_files).
  vm_compute. reflexivity.
Defined.

Lemma init_raises_on_unwritable_target_witness :
  (os.isdir log_file.example_files "/home" = true ->
   init template render "/home" [] log_file.example_files
     = (Raise IsADirectoryError, log_file.example_files)) /\
  (os.resolve log_file.example_files "/home" = inl FileNotFoundError ->
   init template render "/home" [] log_file.example_files
     = (Raise FileNotFoundError, log_file.example_files)).
Proof.
  apply (init_raises_on_unwritable_target template render "/home" []
           log_file.example_files
           [("xfuse", TTable [("version", TStr "0.2.0")]); ("slides", TTable [])]).
  reflexivity.
Defined.


(** *** A setter that raises on the way out *)







(** The command [run] on the world just after import, with a saved
    session: [_DEFAULT_SESSION] has the overrides it had. *)
Lemma sessions_unchanged_except_by_debug_witness :
  _DEFAULT_SESSION < next_oid imported /\
  heap (snd (run_command unit items "0.2.0" ["hssl"; "run"; "project.toml"] same_name
               (fun _ => Ok current_config) Ok no_model Scalar
               (fun _ => Some saved_document) scalar_decode project "out" (Some saved)
               imported)) !! _DEFAULT_SESSION
    = heap imported !! _DEFAULT_SESSION.
Proof.
  assert (H : _DEFAULT_SESSION < next_oid imported) by (apply Nat.lt_0_1).
  split; [exact H|].
  destruct (sessions_unchanged_except_by_debug unit items "0.2.0"
              ["hssl"; "run"; "project.toml"] same_name (fun _ => Ok current_config) Ok
              no_model Scalar (fun _ => Some saved_document) scalar_decode
              imported _DEFAULT_SESSION H)
    as (_ & _ & _ & _ & _ & _ & _ & Hrun & _).
  apply Hrun.
Defined.

(** With the text format of the session module for the saved sessions,
    [load_session] is [load] on the content of the file. *)
Lemma load_session_text (registry : list (string * SessionItem (Env unit)))
    (file : File) (w : World unit) :
  load_session unit registry Scalar parse scalar_decode file w
    = load registry (content file) w.
Proof. reflexivity. Qed.
End main.
